(** * Collaborative canvas: relay server and drawing client

    A shallow embedding of the WebSocket relay server (room history store,
    broadcast router, per-connection message handler) and of the client
    component (remote stroke reconstruction, move batching), with the
    properties of the synchronisation protocol proved about them. *)

From Stdlib Require Import ZArith Ascii String.
From stdpp Require Import gmap strings list fin_maps.

(** ** Wire values *)

(** The result of [JSON.parse] on a text frame.  A finite number is an
    integer here: no property below does arithmetic on a number, only [!x]
    looks at one.  [JInf] is the infinity that a literal too large for a
    double, such as 1e400, parses to ([negative] tells its sign).  A string
    is held as the UTF-8 bytes of its text, a lone surrogate as the three
    bytes of its code unit.  The fields of an object are its own properties
    in property order, each name once.  A serialised text is represented by
    the value it denotes, see [wire]. *)
#[warnings="-register-all"]
Inductive json : Type :=
  | JNull
  | JBool (b : bool)
  | JNum (n : Z)
  | JInf (negative : bool)
  | JStr (s : string)
  | JArr (items : list json)
  | JObj (fields : list (string * json)).

(** [JSON.parse(JSON.stringify(v))]: the value that the text written for [v]
    denotes.  An infinity is written as null, everything else as itself. *)
Fixpoint wire (v : json) : json :=
  match v with
  | JInf _ => JNull
  | JArr items => JArr (map wire items)
  | JObj fs => JObj (map (λ kv, match kv with (k, x) => (k, wire x) end) fs)
  | _ => v
  end.

(** The [readyState] of a WebSocket. *)
Inductive ReadyState : Type := CONNECTING | OPEN | CLOSING | CLOSED.

#[global] Instance ReadyState_eq_dec : EqDecision ReadyState.
Proof. solve_decision. Defined.

(** A JavaScript value read from a parsed message: [None] is [undefined]. *)
Definition jsval : Type := option json.

(** [!v] is [negb (truthy v)]. *)
Definition truthy (v : jsval) : bool :=
  match v with
  | None => false
  | Some JNull => false
  | Some (JBool b) => b
  | Some (JNum n) => negb (n =? 0)%Z
  | Some (JInf _) => true
  | Some (JStr s) => negb (String.eqb s "")
  | Some (JArr _) => true
  | Some (JObj _) => true
  end.

(** Own property lookup: the first binding of [k]. *)
Fixpoint assoc (k : string) (fs : list (string * json)) : jsval :=
  match fs with
  | [] => None
  | (k', v) :: rest => if String.eqb k' k then Some v else assoc k rest
  end.

(** [o[k] = v] on the own properties: an existing property keeps its place,
    a new one goes last. *)
Fixpoint set_field (k : string) (v : json) (fs : list (string * json))
  : list (string * json) :=
  match fs with
  | [] => [(k, v)]
  | (k', v') :: rest =>
      if String.eqb k' k then (k, v) :: rest else (k', v') :: set_field k v rest
  end.

(** [msg.type] and [msg.room] on a value that is not [null]: only an object
    has such a property (arrays and strings own index properties, and no
    prototype defines either name). *)
Definition field (msg : json) (k : string) : jsval :=
  match msg with
  | JObj fs => assoc k fs
  | _ => None
  end.

(** The decimal name of an array index. *)
Definition digit (d : nat) : ascii := ascii_of_nat (48 + d).

Fixpoint digits (fuel n : nat) (acc : string) : string :=
  match fuel with
  | 0 => acc
  | S fuel' =>
      let acc' := String (digit (n `mod` 10)) acc in
      if (n `div` 10 =? 0)%nat then acc' else digits fuel' (n `div` 10) acc'
  end.

Definition index_key (i : nat) : string := digits (S i) i "".

(** The code points of a text from its UTF-8 bytes, one byte at a time:
    [need] bytes are still to come for the code point gathered in [acc]. *)
Definition utf8_step (st : nat * N * list N) (b : N) : nat * N * list N :=
  let '(need, acc, out) := st in
  match need with
  | 0 =>
      if (b <? 128)%N then (0, 0%N, out ++ [b])
      else if (b <? 224)%N then (1, (b `mod` 32)%N, out)
      else if (b <? 240)%N then (2, (b `mod` 16)%N, out)
      else (3, (b `mod` 8)%N, out)
  | S n =>
      let acc' := (acc * 64 + b `mod` 64)%N in
      match n with
      | 0 => (0, 0%N, out ++ [acc'])
      | _ => (n, acc', out)
      end
  end.

Definition code_points (s : string) : list N :=
  (foldl utf8_step (0, 0%N, []) (map N_of_ascii (String.list_ascii_of_string s))).2.

(** The UTF-16 code units of a code point: itself, or a surrogate pair. *)
Definition utf16 (cp : N) : list N :=
  if (cp <? 65536)%N then [cp]
  else [(55296 + (cp - 65536) `div` 1024)%N; (56320 + (cp - 65536) `mod` 1024)%N].

(** The string of one code unit. *)
Definition unit_string (u : N) : string :=
  if (u <? 128)%N then String (ascii_of_N u) ""
  else if (u <? 2048)%N then
    String (ascii_of_N (192 + u `div` 64))
      (String (ascii_of_N (128 + u `mod` 64)) "")
  else
    String (ascii_of_N (224 + u `div` 4096))
      (String (ascii_of_N (128 + (u `div` 64) `mod` 64))
         (String (ascii_of_N (128 + u `mod` 64)) "")).

(** The characters [s[0]], [s[1]], ... of a string: one per code unit. *)
Definition code_units (s : string) : list string :=
  map unit_string (concat (map utf16 (code_points s))).

(** The own enumerable properties that [{...msg}] copies: the fields of an
    object, the elements of an array and the characters of a string under
    their indices, nothing for a boolean or a number. *)
Definition spread (msg : json) : list (string * json) :=
  match msg with
  | JObj fs => fs
  | JArr items => imap (λ i x, (index_key i, x)) items
  | JStr s => imap (λ i c, (index_key i, JStr c)) (code_units s)
  | _ => []
  end.

(** A raw frame: [JSON.parse(raw.toString())] throws or gives a value. *)
Inductive Frame : Type :=
  | Unparseable
  | Parsed (msg : json).

Module Server.

(** *** Identity of room values

    [Map] keys and [!==] compare primitives by value and objects by
    reference.  An object or array held in [ws.room] was created by
    [JSON.parse] of one join frame and [ws.room] is the only reference to it,
    so the session and the ordinal of that join on the session name it. *)
Inductive roomkey : Type :=
  | KUndefined
  | KNull
  | KBool (b : bool)
  | KNum (n : Z)
  | KInf (negative : bool)
  | KStr (s : string)
  | KRef (owner : nat) (join_no : nat).

#[global] Instance roomkey_eq_dec : EqDecision roomkey.
Proof. solve_decision. Defined.

#[global] Instance roomkey_countable : Countable roomkey.
Proof.
  refine (inj_countable'
    (λ k, match k with
          | KUndefined => inl (inl true)
          | KNull => inl (inl false)
          | KBool b => inl (inr b)
          | KNum n => inr (inl n)
          | KStr s => inr (inr (inl s))
          | KRef o j => inr (inr (inr (inl (o, j))))
          | KInf b => inr (inr (inr (inr b)))
          end)
    (λ x, match x with
          | inl (inl true) => KUndefined
          | inl (inl false) => KNull
          | inl (inr b) => KBool b
          | inr (inl n) => KNum n
          | inr (inr (inl s)) => KStr s
          | inr (inr (inr (inl (o, j)))) => KRef o j
          | inr (inr (inr (inr b))) => KInf b
          end) _).
  intros []; reflexivity.
Defined.

(** One connection: the [ws] object of a ["connection"] callback.  [sid] is
    the identity of the object; [joins] counts the join frames it handled. *)
Record Session : Type := mkSession {
  sid : nat;
  readyState : ReadyState;
  room : jsval;
  joins : nat;
}.

Definition identity (ws : Session) : roomkey :=
  match room ws with
  | None => KUndefined
  | Some JNull => KNull
  | Some (JBool b) => KBool b
  | Some (JNum n) => KNum n
  | Some (JInf b) => KInf b
  | Some (JStr s) => KStr s
  | Some (JArr _) => KRef (sid ws) (joins ws)
  | Some (JObj _) => KRef (sid ws) (joins ws)
  end.

(** The process state: [wss.clients] in insertion order, the [roomHistory]
    map, and the number of connections accepted so far (the next [sid]). *)
Record State : Type := mkState {
  clients : list Session;
  roomHistory : gmap roomkey (list json);
  accepted : nat;
}.

(** What a handler does to the outside, in order: a call [client.send(data)]
    and, as a record of the store, a [push] onto a room's array. *)
Inductive Effect : Type :=
  | Send (to : nat) (data : json)
  | Append (key : roomkey) (event : json).

(** [broadcast(room, data, except)]: the three guards of the [forEach]
    callback in source order. *)
Fixpoint broadcast (cs : list Session) (room_ : roomkey) (data : json)
    (except : nat) : list Effect :=
  match cs with
  | [] => []
  | client :: rest =>
      if negb (bool_decide (readyState client = OPEN)) then
        broadcast rest room_ data except
      else if negb (bool_decide (identity client = room_)) then
        broadcast rest room_ data except
      else if (sid client =? except)%nat then
        broadcast rest room_ data except
      else Send (sid client) data :: broadcast rest room_ data except
  end.

(** A handler returns, or throws a [TypeError] that nothing catches. *)
Inductive Outcome : Type :=
  | Returned (st : State) (out : list Effect)
  | Threw.

Definition is_join (msg : json) : bool :=
  match field msg "type" with
  | Some (JStr s) => String.eqb s "join"
  | _ => false
  end.

(** [{type: "history", room: ws.room, events: ...}] serialised: a property
    whose value is [undefined] is left out. *)
Definition history_msg (r : jsval) (events : list json) : json :=
  JObj ([("type", JStr "history")]
        ++ match r with Some v => [("room", wire v)] | None => [] end
        ++ [("events", JArr (map wire events))]).

Definition write_back (ws' : Session) (cs : list Session) : list Session :=
  map (λ c, if (sid c =? sid ws')%nat then ws' else c) cs.

(** The ["message"] listener of the connection [ws]. *)
Definition on_message (st : State) (ws : Session) (raw : Frame) : Outcome :=
  match raw with
  | Unparseable => Returned st []
  | Parsed JNull => Threw
  | Parsed msg =>
      if is_join msg then
        let ws' := mkSession (sid ws) (readyState ws) (field msg "room")
                             (S (joins ws)) in
        let key := identity ws' in
        let store :=
          match roomHistory st !! key with
          | Some _ => roomHistory st
          | None => <[key := []]> (roomHistory st)
          end in
        Returned (mkState (write_back ws' (clients st)) store (accepted st))
                 [Send (sid ws) (history_msg (room ws') (default [] (store !! key)))]
      else if negb (truthy (room ws)) then Returned st []
      else
        match room ws with
        | None => Returned st []
        | Some r =>
            let data := wire (JObj (set_field "room" r (spread msg))) in
            let key := identity ws in
            match roomHistory st !! key with
            | None => Threw
            | Some events =>
                Returned
                  (mkState (clients st)
                           (<[key := events ++ [data]]> (roomHistory st))
                           (accepted st))
                  (Append key data :: broadcast (clients st) key data (sid ws))
            end
        end
  end.

(** *** The process as a whole *)

Inductive Event : Type :=
  | Connection
  | Message (from : nat) (raw : Frame)
  | Transport (who : nat) (rs : ReadyState)
  | Disconnected (who : nat).

Definition session (st : State) (i : nat) : option Session :=
  List.find (λ c, (sid c =? i)%nat) (clients st).

Definition init : State := mkState [] ∅ 0.

Definition step (st : State) (e : Event) : Outcome :=
  match e with
  | Connection =>
      Returned (mkState (clients st ++ [mkSession (accepted st) OPEN (Some JNull) 0])
                        (roomHistory st) (S (accepted st))) []
  | Message i raw =>
      match session st i with
      | Some ws => on_message st ws raw
      | None => Returned st []
      end
  | Transport i rs =>
      Returned (mkState
                  (map (λ c, if (sid c =? i)%nat
                             then mkSession (sid c) rs (room c) (joins c) else c)
                       (clients st))
                  (roomHistory st) (accepted st)) []
  | Disconnected i =>
      Returned (mkState (List.filter (λ c, negb (sid c =? i)%nat) (clients st))
                        (roomHistory st) (accepted st)) []
  end.

(** Run the events in order; [None] once a handler has thrown. *)
Fixpoint run (st : State) (log : list Effect) (es : list Event)
  : option (State * list Effect) :=
  match es with
  | [] => Some (st, log)
  | e :: rest =>
      match step st e with
      | Returned st' out => run st' (log ++ out) rest
      | Threw => None
      end
  end.

(** The events pushed onto the array of [key], in push order. *)
Definition appended (key : roomkey) (log : list Effect) : list json :=
  omap (λ e, match e with
             | Append k ev => if bool_decide (k = key) then Some ev else None
             | Send _ _ => None
             end) log.

(** *** Vocabulary of the properties *)

(** The session [ws] as the join [msg] leaves it. *)
Definition joined (ws : Session) (msg : json) : Session :=
  mkSession (sid ws) (readyState ws) (field msg "room") (S (joins ws)).

(** A peer that [broadcast room_ data except] is to reach. *)
Definition eligible (room_ : roomkey) (except : nat) (c : Session) : bool :=
  bool_decide (readyState c = OPEN) && bool_decide (identity c = room_)
  && negb (sid c =? except)%nat.

(** The message is of kind begin, move or end. *)
Definition stroke_kind (ev : json) : bool :=
  match field ev "type" with
  | Some (JStr s) => String.eqb s "begin" || String.eqb s "move" || String.eqb s "end"
  | _ => false
  end.

(** Every push in the log is of a message that is not a join. *)
Definition no_join_pushed (log : list Effect) : Prop :=
  Forall (λ e, match e with
               | Append _ ev => is_join ev = false
               | Send _ _ => True
               end) log.

(** The store is the record of the pushes, room by room, and every session
    bound to a truthy room has an array in the store. *)
Definition consistent (st : State) (log : list Effect) : Prop :=
  (∀ k, default [] (roomHistory st !! k) = appended k log)
  ∧ (∀ c, c ∈ clients st → truthy (room c) = true →
          is_Some (roomHistory st !! identity c)).

(** The claim that only begin, move and end messages get into a room's
    history. *)
Definition only_strokes_recorded : Prop :=
  ∀ es st log k h ev,
    run init [] es = Some (st, log) →
    roomHistory st !! k = Some h → ev ∈ h → stroke_kind ev = true.

(** The claim that a frame which does not parse, or is not a join and comes
    on a session bound to no room, is dropped without a trace. *)
Definition unbound_traffic_dropped : Prop :=
  ∀ st ws raw,
    (raw = Unparseable
     ∨ ∃ msg, raw = Parsed msg ∧ is_join msg = false ∧ truthy (room ws) = false) →
    on_message st ws raw = Returned st [].

(** *** Sample traffic *)

Definition after (es : list Event) : State :=
  match run init [] es with
  | Some (st, _) => st
  | None => init
  end.

Definition log_of (es : list Event) : list Effect :=
  match run init [] es with
  | Some (_, log) => log
  | None => []
  end.

Definition join_msg (r u : string) : json :=
  JObj [("type", JStr "join"); ("room", JStr r); ("userId", JStr u)].

Definition begin_u1 : json :=
  JObj [("type", JStr "begin"); ("room", JStr "elsewhere"); ("userId", JStr "u1");
        ("color", JStr "#000"); ("width", JNum 2); ("p", JArr [JNum 10; JNum 10])].

Definition move_u1 : json :=
  JObj [("type", JStr "move"); ("userId", JStr "u1");
        ("pts", JArr [JArr [JNum 12; JNum 12]; JArr [JNum 14; JNum 14]])].

Definition history_typed : json :=
  JObj [("type", JStr "history"); ("room", JStr "r1"); ("events", JArr [])].

(** One client joins r1 and draws, a second one connects. *)
Definition one_draws : list Event :=
  [Connection; Message 0 (Parsed (join_msg "r1" "u1"));
   Message 0 (Parsed begin_u1); Message 0 (Parsed move_u1); Connection].

(** Two clients in r1. *)
Definition two_joined : list Event :=
  [Connection; Message 0 (Parsed (join_msg "r1" "u1"));
   Connection; Message 1 (Parsed (join_msg "r1" "u2"))].

(** A client in r1 sends a message typed history. *)
Definition history_sent : list Event :=
  [Connection; Message 0 (Parsed (join_msg "r1" "u1"));
   Message 0 (Parsed history_typed)].

(** *** Messages as they arrive *)

(** The listener takes the message into the room of [ws]: it is neither
    null nor a join, and the room of the session is truthy. *)
Definition accepts (ws : Session) (msg : json) : bool :=
  match msg with
  | JNull => false
  | _ => negb (is_join msg) && truthy (room ws)
  end.

(** The messages that the events deliver and the listener accepts, in
    arrival order, each with the session as it is at that moment. *)
Fixpoint arrivals (st : State) (es : list Event) : list (Session * json) :=
  match es with
  | [] => []
  | e :: rest =>
      match e with
      | Message i (Parsed msg) =>
          match session st i with
          | Some ws => if accepts ws msg then [(ws, msg)] else []
          | None => []
          end
      | _ => []
      end
      ++ match step st e with
         | Returned st' _ => arrivals st' rest
         | Threw => []
         end
  end.

(** The accepted messages of the room [key], each as the text written for
    it with the room of its session reads back. *)
Definition accepted_in (key : roomkey) (st : State) (es : list Event) : list json :=
  omap (λ a, match a with
             | (ws, msg) =>
                 if bool_decide (identity ws = key) then
                   match room ws with
                   | Some r => Some (wire (JObj (set_field "room" r (spread msg))))
                   | None => None
                   end
                 else None
             end) (arrivals st es).

(** Every push in the log is of a value that reads back as itself. *)
Definition pushes_wired (log : list Effect) : Prop :=
  Forall (λ e, match e with
               | Append _ ev => wire ev = ev
               | Send _ _ => True
               end) log.



(** *** Further vocabulary *)

(** The room value is an object or an array. *)
Definition is_object (v : jsval) : bool :=
  match v with
  | Some (JArr _) => true
  | Some (JObj _) => true
  | _ => false
  end.

(** The event delivers the text null. *)
Definition null_frame (e : Event) : bool :=
  match e with
  | Message _ (Parsed JNull) => true
  | _ => false
  end.

(** Every session of [clients] was accepted earlier, and a room object in the
    store belongs to a connection accepted earlier and, if that connection
    is still there, to one of the joins it has handled. *)
Definition refs_known (st : State) : Prop :=
  (∀ c, c ∈ clients st → sid c < accepted st)
  ∧ (∀ o j, is_Some (roomHistory st !! KRef o j) →
            o < accepted st ∧ ∀ c, c ∈ clients st → sid c = o → j ≤ joins c).

(** A client joins with an object for a room, and joins again. *)
Definition object_room_msg : json :=
  JObj [("type", JStr "join"); ("room", JObj [("name", JStr "r1")])].

(** Two clients in r1, the first has sent a begin. *)
Definition one_begun : list Event :=
  two_joined ++ [Message 0 (Parsed begin_u1)].

Definition object_joined : list Event :=
  [Connection; Message 0 (Parsed object_room_msg);
   Message 0 (Parsed begin_u1)].

End Server.

Module Client.

(** *** Messages, as the component declares them *)

Definition number : Type := Z.
Definition point : Type := number * number.

Inductive Msg : Type :=
  | BeginMsg (room userId color : string) (width : number) (p : point)
  | MoveMsg (room userId : string) (pts : list point)
  | EndMsg (room userId : string)
  | JoinMsg (room userId : string).

Inductive AnyMsg : Type :=
  | Live (m : Msg)
  | HistoryMsg (room : string) (events : list Msg).

Definition msg_userId (m : Msg) : string :=
  match m with
  | BeginMsg _ u _ _ _ => u
  | MoveMsg _ u _ => u
  | EndMsg _ u => u
  | JoinMsg _ u => u
  end.

Record StrokeState : Type := mkStroke {
  drawing : bool;
  last : option point;
}.

(** The calls made on the 2D rendering context, in order.  [Setup] stands for
    the transform, cap, join and clear calls of [setupCanvas]. *)
Inductive CanvasCall : Type :=
  | Setup
  | SetStrokeStyle (c : string)
  | SetLineWidth (w : number)
  | BeginPath
  | MoveTo (p : point)
  | LineTo (p : point)
  | Stroke.

Record Socket : Type := mkSocket {
  readyState : ReadyState;
  currentRoom : string;
}.

(** The refs and state of the component.  [ctx] is [ctxRef.current] with the
    calls made on it so far, [sent] the texts passed to [ws.send] so far,
    [flushTimer] is [flushTimerRef.current]: for an armed timer, the [room]
    of the render whose [flushMoveBuffer] its callback closes over. *)
Record State : Type := mkClient {
  canvas : bool;
  ctx : option (list CanvasCall);
  ws : option Socket;
  sent : list Msg;
  remoteStroke : gmap string StrokeState;
  localDrawing : bool;
  localLast : option point;
  moveBuffer : list point;
  flushTimer : option string;
  room : string;
  connected : bool;
  color : string;
  width : number;
  userId : string;
}.

Definition set_ctx (v : option (list CanvasCall)) (c : State) : State :=
  mkClient (canvas c) v (ws c) (sent c) (remoteStroke c) (localDrawing c)
    (localLast c) (moveBuffer c) (flushTimer c) (room c) (connected c)
    (color c) (width c) (userId c).
Definition set_ws (v : option Socket) (c : State) : State :=
  mkClient (canvas c) (ctx c) v (sent c) (remoteStroke c) (localDrawing c)
    (localLast c) (moveBuffer c) (flushTimer c) (room c) (connected c)
    (color c) (width c) (userId c).
Definition set_sent (v : list Msg) (c : State) : State :=
  mkClient (canvas c) (ctx c) (ws c) v (remoteStroke c) (localDrawing c)
    (localLast c) (moveBuffer c) (flushTimer c) (room c) (connected c)
    (color c) (width c) (userId c).
Definition set_remoteStroke (v : gmap string StrokeState) (c : State) : State :=
  mkClient (canvas c) (ctx c) (ws c) (sent c) v (localDrawing c)
    (localLast c) (moveBuffer c) (flushTimer c) (room c) (connected c)
    (color c) (width c) (userId c).
Definition set_localDrawing (v : bool) (c : State) : State :=
  mkClient (canvas c) (ctx c) (ws c) (sent c) (remoteStroke c) v
    (localLast c) (moveBuffer c) (flushTimer c) (room c) (connected c)
    (color c) (width c) (userId c).
Definition set_localLast (v : option point) (c : State) : State :=
  mkClient (canvas c) (ctx c) (ws c) (sent c) (remoteStroke c) (localDrawing c)
    v (moveBuffer c) (flushTimer c) (room c) (connected c)
    (color c) (width c) (userId c).
Definition set_moveBuffer (v : list point) (c : State) : State :=
  mkClient (canvas c) (ctx c) (ws c) (sent c) (remoteStroke c) (localDrawing c)
    (localLast c) v (flushTimer c) (room c) (connected c)
    (color c) (width c) (userId c).
Definition set_flushTimer (v : option string) (c : State) : State :=
  mkClient (canvas c) (ctx c) (ws c) (sent c) (remoteStroke c) (localDrawing c)
    (localLast c) (moveBuffer c) v (room c) (connected c)
    (color c) (width c) (userId c).
Definition set_room (v : string) (c : State) : State :=
  mkClient (canvas c) (ctx c) (ws c) (sent c) (remoteStroke c) (localDrawing c)
    (localLast c) (moveBuffer c) (flushTimer c) v (connected c)
    (color c) (width c) (userId c).
Definition set_connected (v : bool) (c : State) : State :=
  mkClient (canvas c) (ctx c) (ws c) (sent c) (remoteStroke c) (localDrawing c)
    (localLast c) (moveBuffer c) (flushTimer c) (room c) v
    (color c) (width c) (userId c).
Definition set_color (v : string) (c : State) : State :=
  mkClient (canvas c) (ctx c) (ws c) (sent c) (remoteStroke c) (localDrawing c)
    (localLast c) (moveBuffer c) (flushTimer c) (room c) (connected c)
    v (width c) (userId c).
Definition set_width (v : number) (c : State) : State :=
  mkClient (canvas c) (ctx c) (ws c) (sent c) (remoteStroke c) (localDrawing c)
    (localLast c) (moveBuffer c) (flushTimer c) (room c) (connected c)
    (color c) v (userId c).

(** [ws && ws.readyState === WebSocket.OPEN] *)
Definition ws_open (c : State) : bool :=
  match ws c with
  | Some s => bool_decide (readyState s = OPEN)
  | None => false
  end.

(** [ws.send(JSON.stringify(m))] on the current socket. *)
Definition send (m : Msg) (c : State) : State := set_sent (sent c ++ [m]) c.

(** A canvas element always yields a 2D context here. *)
Definition setupCanvas (c : State) : State :=
  if canvas c then set_ctx (Some (default [] (ctx c) ++ [Setup])) c else c.

(** *** Remote stroke reconstruction *)

Definition applyBegin (calls : list CanvasCall) (color_ : string)
    (width_ : number) (p : point) : list CanvasCall :=
  calls ++ [SetStrokeStyle color_; SetLineWidth width_; BeginPath; MoveTo p].

Definition applyMove (calls : list CanvasCall) (from : option point)
    (pts : list point) : list CanvasCall :=
  match pts with
  | [] => calls
  | p0 :: rest =>
      match from with
      | None => calls ++ [BeginPath; MoveTo p0] ++ map LineTo rest ++ [Stroke]
      | Some f => calls ++ [BeginPath; MoveTo f] ++ map LineTo pts ++ [Stroke]
      end
  end.

(** [pts[pts.length - 1]]: [undefined] on the empty array. *)
Fixpoint final_point (pts : list point) : option point :=
  match pts with
  | [] => None
  | [p] => Some p
  | _ :: rest => final_point rest
  end.

Definition handleRemoteEvent (c : State) (msg : Msg) : State :=
  match ctx c with
  | None => c
  | Some calls =>
      let st := default (mkStroke false None) (remoteStroke c !! msg_userId msg) in
      match msg with
      | BeginMsg _ u color_ width_ p =>
          set_remoteStroke (<[u := mkStroke true (Some p)]> (remoteStroke c))
            (set_ctx (Some (applyBegin calls color_ width_ p)) c)
      | MoveMsg _ u pts =>
          set_remoteStroke (<[u := mkStroke true (final_point pts)]> (remoteStroke c))
            (set_ctx (Some (applyMove calls (last st) pts)) c)
      | EndMsg _ u =>
          set_remoteStroke (<[u := mkStroke false None]> (remoteStroke c)) c
      | JoinMsg _ _ => c
      end
  end.

(** [ws.onmessage]: [None] is a text that does not parse. *)
Definition onmessage (c : State) (data : option AnyMsg) : State :=
  match data with
  | None => c
  | Some msg =>
      match ctx c with
      | None => c
      | Some _ =>
          match msg with
          | HistoryMsg _ events =>
              foldl handleRemoteEvent (set_remoteStroke ∅ c) events
          | Live m => handleRemoteEvent c m
          end
      end
  end.

(** *** Local batching *)

(** [flushMoveBuffer] of a render whose [room] is [room_]. *)
Definition flushMoveBuffer (room_ : string) (c : State) : State :=
  if negb (ws_open c) then c
  else
    match moveBuffer c with
    | [] => c
    | pts => send (MoveMsg room_ (userId c) pts) (set_moveBuffer [] c)
    end.

Definition scheduleFlush (c : State) : State :=
  match flushTimer c with
  | Some _ => c
  | None => set_flushTimer (Some (room c)) c
  end.

(** The callback of the flush timer armed under [room_]. *)
Definition onFlushTimer (room_ : string) (c : State) : State :=
  flushMoveBuffer room_ (set_flushTimer None c).

(** [connectWs(currentRoom)] with [VITE_WS_URL] defined. *)
Definition connectWs (currentRoom_ : string) (c : State) : State :=
  set_ws (Some (mkSocket CONNECTING currentRoom_)) c.

Definition onopen (c : State) : State :=
  match ws c with
  | Some s =>
      send (JoinMsg (currentRoom s) (userId c))
        (set_connected true (set_ws (Some (mkSocket OPEN (currentRoom s))) c))
  | None => c
  end.

Definition onclose (c : State) : State :=
  match ws c with
  | Some s => set_connected false (set_ws (Some (mkSocket CLOSED (currentRoom s))) c)
  | None => c
  end.

Definition changeRoom (c : State) : State :=
  connectWs (room c) (setupCanvas c).

Definition onPointerDown (c : State) (p : point) : State :=
  match ctx c with
  | Some calls =>
      if negb (canvas c) || negb (ws_open c) then c
      else
        send (BeginMsg (room c) (userId c) (color c) (width c) p)
          (set_ctx (Some (calls ++ [SetStrokeStyle (color c); SetLineWidth (width c);
                                    BeginPath; MoveTo p]))
             (set_localLast (Some p) (set_localDrawing true c)))
  | None => c
  end.

Definition onPointerMove (c : State) (p : point) : State :=
  if negb (localDrawing c) then c
  else
    match ctx c with
    | None => c
    | Some calls =>
        let calls' :=
          match localLast c with
          | Some l => calls ++ [BeginPath; MoveTo l; LineTo p; Stroke]
          | None => calls
          end in
        scheduleFlush
          (set_moveBuffer (moveBuffer c ++ [p])
             (set_localLast (Some p) (set_ctx (Some calls') c)))
    end.

Definition onPointerUp (c : State) : State :=
  if negb (localDrawing c) then c
  else if negb (canvas c) || negb (ws_open c) then c
  else
    send (EndMsg (room c) (userId c))
      (flushMoveBuffer (room c) (set_localLast None (set_localDrawing false c))).

(** *** The component as a whole: one turn per input *)

Inductive Input : Type :=
  | PointerDown (p : point)
  | PointerMove (p : point)
  | PointerUp
  | FlushTimerFired
  | SocketOpened
  | SocketClosed
  | SocketMessage (data : option AnyMsg)
  | JoinRoomClicked
  | RoomEdited (r : string)
  | ColorPicked (col : string)
  | WidthPicked (w : number)
  | ClearClicked.

(** The timer fires only while armed, a socket opens only once. *)
Definition turn (c : State) (i : Input) : State :=
  match i with
  | PointerDown p => onPointerDown c p
  | PointerMove p => onPointerMove c p
  | PointerUp => onPointerUp c
  | FlushTimerFired =>
      match flushTimer c with
      | Some r => onFlushTimer r c
      | None => c
      end
  | SocketOpened =>
      match ws c with
      | Some (mkSocket CONNECTING _) => onopen c
      | _ => c
      end
  | SocketClosed => onclose c
  | SocketMessage data => onmessage c data
  | JoinRoomClicked => changeRoom c
  | RoomEdited r => set_room r c
  | ColorPicked col => set_color col c
  | WidthPicked w => set_width w c
  | ClearClicked => setupCanvas c
  end.

Definition turns (c : State) (is_ : list Input) : State := foldl turn c is_.

(** The component after its first effect has run, for the user [uid]. *)
Definition mounted (uid : string) : State :=
  connectWs "room1"
    (setupCanvas
       (mkClient true None None [] ∅ false None [] None "room1" false
                 "#111111" 2%Z uid)).

(** *** Vocabulary of the properties *)

(** The per-user state after one remote event, apart from the drawing. *)
Definition track (states : gmap string StrokeState) (m : Msg)
  : gmap string StrokeState :=
  match m with
  | BeginMsg _ u _ _ p => <[u := mkStroke true (Some p)]> states
  | MoveMsg _ u pts => <[u := mkStroke true (final_point pts)]> states
  | EndMsg _ u => <[u := mkStroke false None]> states
  | JoinMsg _ _ => states
  end.

(** The claim that a move with no points leaves the calls on the canvas and
    the state of its user as they were. *)
Definition empty_move_is_noop : Prop :=
  ∀ c r u,
    let c' := handleRemoteEvent c (MoveMsg r u []) in
    ctx c' = ctx c ∧ remoteStroke c' !! u = remoteStroke c !! u.

(** The socket exists and is OPEN. *)
Definition socket_ready (c : State) : Prop :=
  ∃ s, ws c = Some s ∧ readyState s = OPEN.

Definition is_move (m : Msg) : bool :=
  match m with
  | MoveMsg _ _ _ => true
  | _ => false
  end.

Definition move_pts (m : Msg) : list point :=
  match m with
  | MoveMsg _ _ pts => pts
  | _ => []
  end.

(** No move with an empty [pts]. *)
Definition carries_points (m : Msg) : bool :=
  match m with
  | MoveMsg _ _ [] => false
  | _ => true
  end.

(** The guard of [onPointerDown] lets the stroke start. *)
Definition accepts_pointer (c : State) : bool :=
  canvas c && bool_decide (is_Some (ctx c)) && ws_open c.

(** An input that neither starts nor ends a stroke. *)
Definition within_stroke (i : Input) : bool :=
  match i with
  | PointerDown _ => false
  | PointerUp => false
  | _ => true
  end.

(** The points sampled by the pointer moves among the inputs. *)
Definition samples (is_ : list Input) : list point :=
  omap (λ i, match i with PointerMove p => Some p | _ => None end) is_.

(** The socket is OPEN after each of the inputs. *)
Fixpoint stays_open (c : State) (is_ : list Input) : Prop :=
  match is_ with
  | [] => True
  | i :: rest => ws_open (turn c i) = true ∧ stays_open (turn c i) rest
  end.

(** What the turns of a stroke keep: the pointer is down, the canvas and
    its context exist, the socket is OPEN. *)
Definition stroke_inv (c : State) : Prop :=
  localDrawing c = true ∧ canvas c = true ∧ is_Some (ctx c) ∧ ws_open c = true.

(** [c'] differs from [c] in the drawing and the remote strokes at most. *)
Definition same_wire (c c' : State) : Prop :=
  canvas c' = canvas c ∧ ws c' = ws c ∧ sent c' = sent c
  ∧ localDrawing c' = localDrawing c ∧ moveBuffer c' = moveBuffer c
  ∧ userId c' = userId c ∧ (is_Some (ctx c) → is_Some (ctx c')).

(** *** Sample sessions *)

(** A peer that has joined r1 and replayed a history in which u1 began a
    stroke at (10, 10). *)
Definition watching_u1 : State :=
  turns (mounted "u2")
    [SocketOpened;
     SocketMessage (Some (HistoryMsg "r1"
        [BeginMsg "r1" "u1" "#000" 2%Z (10, 10)%Z]))].

(** A user connected to r1, about to draw. *)
Definition ready_u1 : State := turns (mounted "u1") [SocketOpened].

(** Three samples, with a timer flush after the second. *)
Definition three_samples : list Input :=
  [PointerMove (12, 12)%Z; PointerMove (14, 14)%Z; FlushTimerFired;
   PointerMove (16, 18)%Z].

(** *** Further vocabulary *)

(** The colour in force after the calls: that of the last [strokeStyle]
    assignment. *)
Definition stroke_style (calls : list CanvasCall) : option string :=
  foldl (λ cur call, match call with
                     | SetStrokeStyle col => Some col
                     | _ => cur
                     end) None calls.

(** [JSON.stringify] of the object literals that the component sends, with
    their properties in the order of the source. *)
Definition encode_point (p : point) : json := JArr [JNum (fst p); JNum (snd p)].

Definition encode (m : Msg) : json :=
  match m with
  | BeginMsg r u col w p =>
      JObj [("type", JStr "begin"); ("room", JStr r); ("userId", JStr u);
            ("color", JStr col); ("width", JNum w); ("p", encode_point p)]
  | MoveMsg r u pts =>
      JObj [("type", JStr "move"); ("room", JStr r); ("userId", JStr u);
            ("pts", JArr (map encode_point pts))]
  | EndMsg r u =>
      JObj [("type", JStr "end"); ("room", JStr r); ("userId", JStr u)]
  | JoinMsg r u =>
      JObj [("type", JStr "join"); ("room", JStr r); ("userId", JStr u)]
  end.

(** The message with another room name. *)
Definition with_room (r : string) (m : Msg) : Msg :=
  match m with
  | BeginMsg _ u col w p => BeginMsg r u col w p
  | MoveMsg _ u pts => MoveMsg r u pts
  | EndMsg _ u => EndMsg r u
  | JoinMsg _ u => JoinMsg r u
  end.

Definition is_join_msg (m : Msg) : bool :=
  match m with
  | JoinMsg _ _ => true
  | _ => false
  end.

(** The segments that the samples [ps] draw on the local canvas, one path
    per sample, from the point [from] on. *)
Fixpoint local_segments (from : point) (ps : list point) : list CanvasCall :=
  match ps with
  | [] => []
  | p :: rest => [BeginPath; MoveTo from; LineTo p; Stroke] ++ local_segments p rest
  end.

(** [ready_u1] in the middle of a stroke: two samples buffered, the timer
    armed. *)
Definition mid_stroke : State :=
  turns (onPointerDown ready_u1 (10, 10)%Z)
    [PointerMove (12, 12)%Z; PointerMove (14, 14)%Z].

End Client.

(** ** Properties of the wire values *)


Lemma assoc_set_field_ne k k' v fs :
  k ≠ k' → assoc k' (set_field k v fs) = assoc k' fs.
Proof.
  intros Hne. induction fs as [|[k0 v0] fs IH]; simpl.
  - destruct (String.eqb k k') eqn:E; [|done].
    apply String.eqb_eq in E. contradiction.
  - destruct (String.eqb k0 k) eqn:E; simpl.
    + apply String.eqb_eq in E. subst k0.
      destruct (String.eqb k k') eqn:E'; [|done].
      apply String.eqb_eq in E'. contradiction.
    + by rewrite IH.
Qed.

(** An index name starts with a decimal digit. *)
Lemma digits_head fuel n acc :
  ∃ d s, d < 10 ∧ digits (S fuel) n acc = String (digit d) s.
Proof.
  revert n acc. induction fuel as [|fuel IH]; intros n acc.
  - exists (n `mod` 10), acc. split; [apply Nat.mod_upper_bound; lia|].
    simpl. by destruct (_ =? 0)%nat.
  - change (digits (S (S fuel)) n acc)
      with (let acc' := String (digit (n `mod` 10)) acc in
            if (n `div` 10 =? 0)%nat then acc'
            else digits (S fuel) (n `div` 10) acc').
    simpl. destruct (_ =? 0)%nat.
    + exists (n `mod` 10), acc. split; [apply Nat.mod_upper_bound; lia|done].
    + apply IH.
Qed.

Lemma index_key_not_lower i c s :
  (96 < nat_of_ascii c) → index_key i ≠ String c s.
Proof.
  intros Hc Heq. destruct (digits_head i i "") as (d & s' & Hd & Hk).
  unfold index_key in Heq. rewrite Hk in Heq. injection Heq as <- _.
  unfold digit in Hc. rewrite nat_ascii_embedding in Hc; lia.
Qed.

Lemma assoc_imap_index {A} (f : A → json) k (l : list A) c s n :
  k = String c s → 96 < nat_of_ascii c →
  assoc k (imap (λ i x, (index_key (n + i), f x)) l) = None.
Proof.
  intros -> Hc. revert n. induction l as [|x l IH]; intros n; [done|].
  simpl. destruct (String.eqb _ _) eqn:E.
  - apply String.eqb_eq in E. by apply index_key_not_lower in E.
  - rewrite <-(IH (S n)). f_equal. apply imap_ext. intros i y _. simpl.
    by rewrite Nat.add_succ_r.
Qed.

(** Spreading keeps [msg.type]: an index is never named ["type"]. *)
Lemma spread_type msg : assoc "type" (spread msg) = field msg "type".
Proof.
  destruct msg; simpl; try done.
  - apply (assoc_imap_index JStr _ _ "t"%char "ype" 0);
      [done | vm_compute; lia].
  - apply (assoc_imap_index (λ x, x) _ _ "t"%char "ype" 0);
      [done | vm_compute; lia].
Qed.

(** Induction on a value through its items and fields. *)
Lemma json_nested_ind (P : json → Prop) :
  P JNull → (∀ b, P (JBool b)) → (∀ n, P (JNum n)) → (∀ b, P (JInf b)) →
  (∀ s, P (JStr s)) →
  (∀ items, Forall P items → P (JArr items)) →
  (∀ fs, Forall (λ kv, P kv.2) fs → P (JObj fs)) →
  ∀ v, P v.
Proof.
  intros Hnull Hbool Hnum Hinf Hstr Harr Hobj.
  fix IH 1. intros [| b | n | b | s | items | fs].
  - exact Hnull.
  - apply Hbool.
  - apply Hnum.
  - apply Hinf.
  - apply Hstr.
  - apply Harr. induction items as [|x items IHitems]; constructor.
    + apply IH.
    + exact IHitems.
  - apply Hobj. induction fs as [|[k x] fs IHfs]; constructor.
    + apply IH.
    + exact IHfs.
Qed.

(** What is written is read back as written. *)
Lemma wire_idem v : wire (wire v) = wire v.
Proof.
  induction v as [| | | | | items IH | fs IH] using json_nested_ind; try done.
  - simpl. f_equal. rewrite map_map. apply map_ext_Forall.
    by eapply Forall_impl; [exact IH|].
  - simpl. f_equal. rewrite map_map. apply map_ext_Forall.
    eapply Forall_impl; [exact IH|]. intros [k x] Hx. simpl in *. by rewrite Hx.
Qed.

Lemma assoc_wire k fs :
  assoc k (map (λ kv, match kv with (k', x) => (k', wire x) end) fs)
  = wire <$> assoc k fs.
Proof.
  induction fs as [|[k' x] fs IH]; [done|]. simpl.
  by destruct (String.eqb k' k).
Qed.

Lemma field_wire v k : field (wire v) k = wire <$> field v k.
Proof. destruct v; try done. apply assoc_wire. Qed.

Lemma wire_str v s : wire v = JStr s ↔ v = JStr s.
Proof. destruct v; simpl; split; congruence. Qed.

(** ** The relay server *)

Module ServerProofs.
Import Server.

(** *** The message listener, branch by branch *)

Lemma is_join_not_null msg : is_join msg = true → msg ≠ JNull.
Proof. by intros H ->. Qed.

Lemma null_or_not msg : msg = JNull ∨ msg ≠ JNull.
Proof. destruct msg; auto. Qed.

Lemma on_message_join st ws msg :
  is_join msg = true →
  let ws' := mkSession (sid ws) (readyState ws) (field msg "room") (S (joins ws)) in
  let store :=
    match roomHistory st !! identity ws' with
    | Some _ => roomHistory st
    | None => <[identity ws' := []]> (roomHistory st)
    end in
  on_message st ws (Parsed msg)
  = Returned (mkState (write_back ws' (clients st)) store (accepted st))
      [Send (sid ws)
         (history_msg (field msg "room") (default [] (store !! identity ws')))].
Proof.
  intros Hj. destruct msg; try discriminate Hj.
  unfold on_message. by rewrite Hj.
Qed.

Lemma on_message_unbound st ws msg :
  msg ≠ JNull → is_join msg = false → truthy (room ws) = false →
  on_message st ws (Parsed msg) = Returned st [].
Proof.
  intros Hn Hj Ht. destruct msg; try done; unfold on_message.
  all: try (by rewrite Ht).
  by rewrite Hj, Ht.
Qed.

Lemma on_message_relay st ws msg r :
  msg ≠ JNull → is_join msg = false →
  room ws = Some r → truthy (Some r) = true →
  on_message st ws (Parsed msg)
  = let data := wire (JObj (set_field "room" r (spread msg))) in
    match roomHistory st !! identity ws with
    | None => Threw
    | Some events =>
        Returned
          (mkState (clients st)
             (<[identity ws := events ++ [data]]> (roomHistory st)) (accepted st))
          (Append (identity ws) data
             :: broadcast (clients st) (identity ws) data (sid ws))
    end.
Proof.
  intros Hn Hj Hr Ht. destruct msg; try done; unfold on_message.
  all: try (by rewrite Hr, Ht).
  by rewrite Hj, Hr, Ht.
Qed.

(** *** Broadcast *)

Lemma broadcast_filter cs r data except :
  broadcast cs r data except
  = map (λ c, Send (sid c) data) (List.filter (eligible r except) cs).
Proof.
  induction cs as [|c cs IH]; [done|]. simpl. unfold eligible at 1.
  destruct (bool_decide (readyState c = OPEN)); simpl; [|done].
  destruct (bool_decide (identity c = r)); simpl; [|done].
  destruct (sid c =? except)%nat; simpl; [done|]. by rewrite IH.
Qed.

Lemma eligible_spec r except c :
  eligible r except c = true
  ↔ readyState c = OPEN ∧ identity c = r ∧ sid c ≠ except.
Proof.
  unfold eligible. rewrite !andb_true_iff, !bool_decide_eq_true, negb_true_iff.
  rewrite Nat.eqb_neq. tauto.
Qed.

Lemma appended_app k l1 l2 :
  appended k (l1 ++ l2) = appended k l1 ++ appended k l2.
Proof. apply omap_app. Qed.

Lemma appended_broadcast k cs r data except :
  appended k (broadcast cs r data except) = [].
Proof.
  rewrite broadcast_filter. induction (List.filter _ cs) as [|c l IH]; done.
Qed.

(** *** What every reachable state satisfies *)

Lemma session_elem st i ws :
  session st i = Some ws → ws ∈ clients st ∧ sid ws = i.
Proof.
  unfold session. intros H. apply find_some in H as [Hin Heq].
  split; [by apply list_elem_of_In | by apply Nat.eqb_eq].
Qed.

Lemma write_back_elem ws' cs c :
  c ∈ write_back ws' cs → c = ws' ∨ c ∈ cs.
Proof.
  unfold write_back. rewrite list_elem_of_fmap. intros (c0 & -> & Hin).
  destruct (sid c0 =? sid ws')%nat; auto.
Qed.

Lemma on_message_consistent st log ws raw st' out :
  consistent st log →
  on_message st ws raw = Returned st' out →
  consistent st' (log ++ out).
Proof.
  intros [Hstore Hbound] Hrun. destruct raw as [|msg].
  { injection Hrun as <- <-. by rewrite app_nil_r. }
  destruct (null_or_not msg) as [->|Hnull]; [done|].
  destruct (is_join msg) eqn:Hj.
  - rewrite on_message_join in Hrun by done. injection Hrun as <- <-.
    set (ws' := mkSession _ _ _ _). split; simpl.
    + intros k. rewrite appended_app, app_nil_r, <-Hstore.
      destruct (roomHistory st !! identity ws') eqn:E; [done|].
      destruct (decide (identity ws' = k)) as [<-|Hne].
      * by rewrite lookup_insert_eq, E.
      * by rewrite lookup_insert_ne.
    + intros c Hc Ht. apply write_back_elem in Hc as [->|Hc].
      * destruct (roomHistory st !! identity ws') eqn:E; [by rewrite E|].
        by rewrite lookup_insert_eq.
      * destruct (Hbound c Hc Ht) as [h Hh].
        destruct (roomHistory st !! identity ws') eqn:E; [by rewrite Hh|].
        destruct (decide (identity ws' = identity c)) as [Heq|Hne].
        -- rewrite <-Heq. by rewrite lookup_insert_eq.
        -- by rewrite lookup_insert_ne, Hh.
  - destruct (truthy (room ws)) eqn:Ht.
    + destruct (room ws) as [r|] eqn:Hr; [|done].
      rewrite (on_message_relay _ _ _ r) in Hrun by done. simpl in Hrun.
      destruct (roomHistory st !! identity ws) as [h|] eqn:E; [|done].
      injection Hrun as <- <-. split; simpl.
      * intros k. rewrite appended_app. simpl.
        rewrite appended_broadcast, <-Hstore.
        case_bool_decide as Hk.
        -- subst k. by rewrite lookup_insert_eq, E.
        -- by rewrite lookup_insert_ne, app_nil_r.
      * intros c Hc Htc. destruct (Hbound c Hc Htc) as [h' Hh'].
        destruct (decide (identity ws = identity c)) as [Heq|Hne].
        -- rewrite <-Heq. by rewrite lookup_insert_eq.
        -- by rewrite lookup_insert_ne, Hh'.
    + rewrite on_message_unbound in Hrun by done.
      injection Hrun as <- <-. by rewrite app_nil_r.
Qed.

Lemma step_consistent st log e st' out :
  consistent st log → step st e = Returned st' out →
  consistent st' (log ++ out).
Proof.
  intros Hc Hs. destruct e as [|i raw|i rs|i]; simpl in Hs.
  - injection Hs as <- <-. rewrite app_nil_r. destruct Hc as [H1 H2].
    split; [done|]. simpl. intros c Hin Ht.
    apply elem_of_app in Hin as [Hin|Hin]; [by apply H2|].
    apply list_elem_of_singleton in Hin. by subst c.
  - destruct (session st i) as [ws|] eqn:E.
    + by eapply on_message_consistent.
    + injection Hs as <- <-. by rewrite app_nil_r.
  - injection Hs as <- <-. rewrite app_nil_r. destruct Hc as [H1 H2].
    split; [done|]. simpl. intros c Hin Ht.
    apply list_elem_of_fmap in Hin as (c0 & -> & Hin).
    destruct (sid c0 =? i)%nat; [|by apply H2].
    apply (H2 c0 Hin Ht).
  - injection Hs as <- <-. rewrite app_nil_r. destruct Hc as [H1 H2].
    split; [done|]. simpl. intros c Hin Ht.
    apply list_elem_of_In, filter_In in Hin as [Hin _].
    apply H2; [by apply list_elem_of_In | done].
Qed.

Lemma run_consistent es st log st' log' :
  consistent st log → run st log es = Some (st', log') →
  consistent st' log'.
Proof.
  revert st log. induction es as [|e es IH]; intros st log Hc Hr; simpl in Hr.
  - by injection Hr as <- <-.
  - destruct (step st e) as [st1 out|] eqn:E; [|done].
    eapply IH; [|exact Hr]. by eapply step_consistent.
Qed.

Lemma init_consistent : consistent init [].
Proof.
  split; [intros k; simpl; by rewrite lookup_empty | intros c Hc; inversion Hc].
Qed.

Lemma reachable_consistent es st log :
  run init [] es = Some (st, log) → consistent st log.
Proof. apply run_consistent, init_consistent. Qed.

(** *** Joining *)

Lemma session_write_back st i ws ws' :
  session st i = Some ws → sid ws' = i →
  List.find (λ c, (sid c =? i)%nat) (write_back ws' (clients st)) = Some ws'.
Proof.
  unfold session, write_back. intros Hf <-.
  induction (clients st) as [|c cs IH]; [done|]. simpl in *.
  destruct (sid c =? sid ws')%nat eqn:E; simpl.
  - by rewrite Nat.eqb_refl.
  - rewrite E. auto.
Qed.

(** The reply to a join carries the array of the room as the pushes built
    it. *)
Lemma history_sent_is_store es st log i ws msg :
  run init [] es = Some (st, log) →
  session st i = Some ws →
  is_join msg = true →
  ∃ st',
    on_message st ws (Parsed msg)
    = Returned st'
        [Send i (history_msg (field msg "room")
                   (appended (identity (joined ws msg)) log))]
    ∧ session st' i = Some (joined ws msg)
    ∧ roomHistory st' !! identity (joined ws msg)
      = Some (appended (identity (joined ws msg)) log).
Proof.
  intros Hrun Hs Hj. apply reachable_consistent in Hrun as [Hstore _].
  destruct (session_elem _ _ _ Hs) as [_ Hi].
  rewrite on_message_join by done. fold (joined ws msg).
  set (key := identity (joined ws msg)).
  assert (default [] (match roomHistory st !! key with
                      | Some _ => roomHistory st
                      | None => <[key := []]> (roomHistory st)
                      end !! key) = appended key log) as Hev.
  { rewrite <-Hstore. destruct (roomHistory st !! key) eqn:E.
    - by rewrite E.
    - by rewrite lookup_insert_eq. }
  eexists. split; [by rewrite Hev, Hi|]. split.
  - unfold session. simpl. by apply (session_write_back st i ws).
  - simpl. rewrite <-Hstore. destruct (roomHistory st !! key) eqn:E.
    + by rewrite E.
    + by rewrite lookup_insert_eq.
Qed.


(** *** Broadcast *)

(** C2. [broadcast] sends the data once to each client that is OPEN, bound
    to the room and not the excluded session, in client order, and to no
    one else; the excluded session gets nothing. *)
Theorem broadcast_reaches_open_peers_only cs r data except :
  broadcast cs r data except
  = map (λ c, Send (sid c) data) (List.filter (eligible r except) cs)
  ∧ (∀ e, e ∈ broadcast cs r data except
          ↔ ∃ c, c ∈ cs ∧ e = Send (sid c) data ∧ readyState c = OPEN
                 ∧ identity c = r ∧ sid c ≠ except)
  ∧ (∀ d, Send except d ∉ broadcast cs r data except)
  ∧ (∀ k ev, Append k ev ∉ broadcast cs r data except).
Proof.
  assert (∀ e, e ∈ broadcast cs r data except
          ↔ ∃ c, c ∈ cs ∧ e = Send (sid c) data ∧ readyState c = OPEN
                 ∧ identity c = r ∧ sid c ≠ except) as Hiff.
  { intros e. rewrite broadcast_filter, list_elem_of_fmap. split.
    - intros (c & -> & Hin). apply list_elem_of_In, filter_In in Hin as [Hin He].
      apply eligible_spec in He. exists c.
      split; [by apply list_elem_of_In | tauto].
    - intros (c & Hin & -> & Hel). exists c. split; [done|].
      apply list_elem_of_In, filter_In. split; [by apply list_elem_of_In|].
      by apply eligible_spec. }
  split; [apply broadcast_filter|]. split; [exact Hiff|]. split.
  - intros d Hin. apply Hiff in Hin as (c & _ & Heq & _ & _ & Hne).
    injection Heq as -> _. done.
  - intros k ev Hin. apply Hiff in Hin as (c & _ & Heq & _). discriminate.
Qed.

(** *** Relaying *)


Lemma is_join_wire v : is_join (wire v) = is_join v.
Proof.
  unfold is_join. rewrite field_wire. destruct (field v "type") as [[]|]; done.
Qed.



Lemma stamped_join r msg :
  is_join (wire (JObj (set_field "room" r (spread msg)))) = is_join msg.
Proof.
  rewrite is_join_wire. unfold is_join. simpl.
  rewrite assoc_set_field_ne by done. by rewrite spread_type.
Qed.

(** *** What the store holds *)

Lemma on_message_no_join st ws raw st' out :
  on_message st ws raw = Returned st' out → no_join_pushed out.
Proof.
  intros Hrun. unfold no_join_pushed. destruct raw as [|msg].
  { injection Hrun as _ <-. constructor. }
  destruct (null_or_not msg) as [->|Hnull]; [done|].
  destruct (is_join msg) eqn:Hj.
  - rewrite on_message_join in Hrun by done. injection Hrun as _ <-.
    by repeat constructor.
  - destruct (truthy (room ws)) eqn:Ht.
    + destruct (room ws) as [r|] eqn:Hr; [|done].
      rewrite (on_message_relay _ _ _ r) in Hrun by done. simpl in Hrun.
      destruct (roomHistory st !! identity ws); [|done].
      injection Hrun as _ <-. constructor.
      * change (is_join (wire (JObj (set_field "room" r (spread msg)))) = false).
        by rewrite stamped_join.
      * rewrite broadcast_filter. apply Forall_fmap, Forall_true. done.
    + rewrite on_message_unbound in Hrun by done. injection Hrun as _ <-.
      constructor.
Qed.

Lemma run_no_join es st log st' log' :
  no_join_pushed log → run st log es = Some (st', log') → no_join_pushed log'.
Proof.
  revert st log. induction es as [|e es IH]; intros st log Hl Hr; simpl in Hr.
  - by injection Hr as _ <-.
  - destruct (step st e) as [st1 out|] eqn:E; [|done].
    eapply IH; [|exact Hr]. apply Forall_app. split; [done|].
    destruct e as [|i raw|i rs|i]; simpl in E.
    + injection E as _ <-. constructor.
    + destruct (session st i) as [ws|].
      * by eapply on_message_no_join.
      * injection E as _ <-. constructor.
    + injection E as _ <-. constructor.
    + injection E as _ <-. constructor.
Qed.

Lemma appended_elem k ev log : ev ∈ appended k log → Append k ev ∈ log.
Proof.
  unfold appended. rewrite list_elem_of_omap. intros (e & Hin & He).
  destruct e as [|k' ev']; [done|]. case_bool_decide; [|done].
  injection He as ->. by subst k'.
Qed.

Lemma stored_not_join es st log k h ev :
  run init [] es = Some (st, log) →
  roomHistory st !! k = Some h → ev ∈ h → is_join ev = false.
Proof.
  intros Hrun Hk Hev.
  assert (no_join_pushed log) as Hlog.
  { eapply run_no_join; [|exact Hrun]. constructor. }
  apply reachable_consistent in Hrun as [Hstore _].
  specialize (Hstore k). rewrite Hk in Hstore. simpl in Hstore. subst h.
  apply appended_elem in Hev.
  unfold no_join_pushed in Hlog. rewrite Forall_forall in Hlog.
  apply (Hlog _ Hev).
Qed.


(** C3, as claimed, fails: a message typed history that a bound client
    sends is stored in the room's history. *)
Lemma history_typed_message_is_recorded : ¬ only_strokes_recorded.
Proof.
  intros H.
  specialize (H history_sent (after history_sent) (log_of history_sent)
                (KStr "r1") [history_typed] history_typed).
  assert (stroke_kind history_typed = true) as Hk.
  { apply H.
    - vm_compute. reflexivity.
    - vm_compute. reflexivity.
    - apply list_elem_of_here. }
  discriminate Hk.
Qed.


(** *** The store and the messages received *)

Lemma history_msg_fields r events :
  field (history_msg r events) "type" = Some (JStr "history")
  ∧ field (history_msg r events) "room" = wire <$> r
  ∧ field (history_msg r events) "events" = Some (JArr (map wire events)).
Proof. by destruct r. Qed.

Lemma on_message_wired st ws raw st' out :
  on_message st ws raw = Returned st' out → pushes_wired out.
Proof.
  intros Hrun. unfold pushes_wired. destruct raw as [|msg].
  { injection Hrun as _ <-. constructor. }
  destruct (null_or_not msg) as [->|Hnull]; [done|].
  destruct (is_join msg) eqn:Hj.
  - rewrite on_message_join in Hrun by done. injection Hrun as _ <-.
    by repeat constructor.
  - destruct (truthy (room ws)) eqn:Ht.
    + destruct (room ws) as [r|] eqn:Hr; [|done].
      rewrite (on_message_relay _ _ _ r) in Hrun by done.
      cbv zeta in Hrun.
      destruct (roomHistory st !! identity ws); [|done].
      injection Hrun as _ <-. constructor.
      * apply (wire_idem (JObj (set_field "room" r (spread msg)))).
      * rewrite broadcast_filter. apply Forall_fmap, Forall_true. done.
    + rewrite on_message_unbound in Hrun by done. injection Hrun as _ <-.
      constructor.
Qed.

Lemma run_wired es st log st' log' :
  pushes_wired log → run st log es = Some (st', log') → pushes_wired log'.
Proof.
  revert st log. induction es as [|e es IH]; intros st log Hl Hr; simpl in Hr.
  - by injection Hr as _ <-.
  - destruct (step st e) as [st1 out|] eqn:E; [|done].
    eapply IH; [|exact Hr]. apply Forall_app. split; [done|].
    destruct e as [|i raw|i rs|i]; simpl in E.
    + injection E as _ <-. constructor.
    + destruct (session st i) as [ws|].
      * by eapply on_message_wired.
      * injection E as _ <-. constructor.
    + injection E as _ <-. constructor.
    + injection E as _ <-. constructor.
Qed.

Lemma appended_wired k log :
  pushes_wired log → map wire (appended k log) = appended k log.
Proof.
  unfold pushes_wired. induction 1 as [|e log He _ IH]; [done|].
  fold (pushes_wired log) in IH. destruct e as [|k' ev].
  - exact IH.
  - change (appended k (Append k' ev :: log))
      with (match (if bool_decide (k' = k) then Some ev else None) with
            | Some x => x :: appended k log
            | None => appended k log
            end).
    case_bool_decide; [|exact IH]. simpl. by rewrite He, IH.
Qed.

Lemma accepts_not_null ws msg :
  msg ≠ JNull → accepts ws msg = negb (is_join msg) && truthy (room ws).
Proof. by destruct msg. Qed.

(** What one event pushes onto the array of a room is the message it
    delivers, if the listener accepts it into that room. *)
Lemma appended_cons k k' ev log :
  appended k (Append k' ev :: log)
  = (if bool_decide (k' = k) then [ev] else []) ++ appended k log.
Proof. unfold appended. simpl. by case_bool_decide. Qed.

Lemma step_arrival st e st' out k :
  step st e = Returned st' out →
  appended k out = accepted_in k st [e].
Proof.
  intros Hs. unfold accepted_in. cbn [arrivals]. rewrite Hs, !app_nil_r.
  destruct e as [|i raw|i rs|i]; simpl in Hs;
    try (by injection Hs as _ <-).
  destruct (session st i) as [ws|] eqn:E.
  2:{ injection Hs as _ <-. by destruct raw. }
  destruct raw as [|msg]; [by injection Hs as _ <-|].
  destruct (null_or_not msg) as [->|Hnull]; [done|].
  rewrite accepts_not_null by done.
  destruct (is_join msg) eqn:Hj.
  - rewrite on_message_join in Hs by done. by injection Hs as _ <-.
  - destruct (truthy (room ws)) eqn:Ht.
    + destruct (room ws) as [r|] eqn:Hr; [|done].
      rewrite (on_message_relay _ _ _ r) in Hs by done. cbv zeta in Hs.
      destruct (roomHistory st !! identity ws); [|done].
      injection Hs as _ <-.
      rewrite appended_cons, appended_broadcast, app_nil_r. simpl.
      rewrite Hr. by case_bool_decide.
    + rewrite on_message_unbound in Hs by done. by injection Hs as _ <-.
Qed.

Lemma accepted_in_cons k st e st' out es :
  step st e = Returned st' out →
  accepted_in k st (e :: es) = accepted_in k st [e] ++ accepted_in k st' es.
Proof.
  intros Hs. unfold accepted_in. simpl. rewrite Hs, app_nil_r.
  by rewrite omap_app.
Qed.

(** The pushes of a run are the accepted messages of its events. *)
Lemma run_arrivals es st log st' log' k :
  run st log es = Some (st', log') →
  appended k log' = appended k log ++ accepted_in k st es.
Proof.
  revert st log. induction es as [|e es IH]; intros st log Hr; simpl in Hr.
  - injection Hr as _ <-. unfold accepted_in. simpl. by rewrite app_nil_r.
  - destruct (step st e) as [st1 out|] eqn:E; [|done].
    rewrite (IH _ _ Hr), appended_app, (accepted_in_cons _ _ _ _ _ _ E).
    rewrite <-(step_arrival _ _ _ _ _ E). by rewrite app_assoc.
Qed.

(** C1. Append-order fidelity: after any run of the server, the History
    message sent to a session that joins a room carries in its events
    array exactly the messages that the server accepted into that room, as
    it stored them and in the order in which they arrived, none missing,
    repeated or moved; the session is then bound to that room. *)
Theorem history_replays_append_order es st log i ws msg :
  run init [] es = Some (st, log) →
  session st i = Some ws →
  is_join msg = true →
  ∃ st' reply,
    on_message st ws (Parsed msg) = Returned st' [Send i reply]
    ∧ field reply "type" = Some (JStr "history")
    ∧ field reply "events"
      = Some (JArr (accepted_in (identity (joined ws msg)) init es))
    ∧ session st' i = Some (joined ws msg)
    ∧ roomHistory st' !! identity (joined ws msg)
      = Some (accepted_in (identity (joined ws msg)) init es).
Proof.
  intros Hrun Hs Hj.
  destruct (history_sent_is_store es st log i ws msg Hrun Hs Hj)
    as (st' & Hm & Hs' & Hst).
  assert (appended (identity (joined ws msg)) log
          = accepted_in (identity (joined ws msg)) init es) as Hacc.
  { by rewrite (run_arrivals _ _ _ _ _ _ Hrun). }
  assert (pushes_wired log) as Hw.
  { eapply run_wired; [|exact Hrun]. constructor. }
  exists st', (history_msg (field msg "room")
                 (appended (identity (joined ws msg)) log)).
  destruct (history_msg_fields (field msg "room")
              (appended (identity (joined ws msg)) log)) as (Ht & _ & He).
  split; [done|]. split; [done|]. split.
  - by rewrite He, appended_wired, Hacc.
  - by rewrite <-Hacc.
Qed.

(** The second client of [one_draws] joins r1 and is sent the begin and the
    move of the first, stamped r1, in that order. *)
Lemma history_replays_append_order_witness :
  accepted_in (KStr "r1") init one_draws
  = [JObj [("type", JStr "begin"); ("room", JStr "r1"); ("userId", JStr "u1");
           ("color", JStr "#000"); ("width", JNum 2);
           ("p", JArr [JNum 10; JNum 10])];
     JObj [("type", JStr "move"); ("userId", JStr "u1");
           ("pts", JArr [JArr [JNum 12; JNum 12]; JArr [JNum 14; JNum 14]]);
           ("room", JStr "r1")]]
  ∧ ∃ st' reply,
      on_message (after one_draws) (mkSession 1 OPEN (Some JNull) 0)
        (Parsed (join_msg "r1" "u2"))
      = Returned st' [Send 1 reply]
      ∧ field reply "type" = Some (JStr "history")
      ∧ field reply "events"
        = Some (JArr (accepted_in
                        (identity (joined (mkSession 1 OPEN (Some JNull) 0)
                                     (join_msg "r1" "u2")))
                        init one_draws))
      ∧ session st' 1
        = Some (joined (mkSession 1 OPEN (Some JNull) 0) (join_msg "r1" "u2"))
      ∧ roomHistory st'
          !! identity (joined (mkSession 1 OPEN (Some JNull) 0)
                         (join_msg "r1" "u2"))
        = Some (accepted_in
                  (identity (joined (mkSession 1 OPEN (Some JNull) 0)
                               (join_msg "r1" "u2")))
                  init one_draws).
Proof.
  split; [vm_compute; reflexivity|].
  apply (history_replays_append_order one_draws (after one_draws)
           (log_of one_draws) 1 (mkSession 1 OPEN (Some JNull) 0)
           (join_msg "r1" "u2")).
  - vm_compute. reflexivity.
  - vm_compute. reflexivity.
  - vm_compute. reflexivity.
Defined.

(** *** The room of a relayed message *)




(** *** The kinds in the store *)

(** C3, amended. No stored event is a join, and so no element of the events
    array of the History reply to a join is one. *)
Theorem history_holds_no_join es st log :
  run init [] es = Some (st, log) →
  (∀ k h ev, roomHistory st !! k = Some h → ev ∈ h → is_join ev = false)
  ∧ (∀ i ws msg, session st i = Some ws → is_join msg = true →
       ∃ st' reply events,
         on_message st ws (Parsed msg) = Returned st' [Send i reply]
         ∧ field reply "type" = Some (JStr "history")
         ∧ field reply "events" = Some (JArr events)
         ∧ ∀ ev, ev ∈ events → is_join ev = false).
Proof.
  intros Hrun. split.
  - intros k h ev. by apply (stored_not_join es st log).
  - intros i ws msg Hs Hj.
    destruct (history_sent_is_store es st log i ws msg Hrun Hs Hj)
      as (st' & Hm & _ & Hst).
    destruct (history_msg_fields (field msg "room")
                (appended (identity (joined ws msg)) log)) as (Ht & _ & He).
    assert (pushes_wired log) as Hw.
    { eapply run_wired; [|exact Hrun]. constructor. }
    rewrite appended_wired in He by done.
    eexists st', _, _. split; [exact Hm|]. split; [exact Ht|].
    split; [exact He|].
    intros ev Hev. apply appended_elem in Hev.
    assert (no_join_pushed log) as Hlog.
    { eapply run_no_join; [|exact Hrun]. constructor. }
    unfold no_join_pushed in Hlog. rewrite Forall_forall in Hlog.
    apply (Hlog _ Hev).
Qed.

(** The state after [history_sent]. *)
Lemma history_holds_no_join_witness :
  (∀ k h ev, roomHistory (after history_sent) !! k = Some h → ev ∈ h →
             is_join ev = false)
  ∧ (∀ i ws msg, session (after history_sent) i = Some ws → is_join msg = true →
       ∃ st' reply events,
         on_message (after history_sent) ws (Parsed msg)
         = Returned st' [Send i reply]
         ∧ field reply "type" = Some (JStr "history")
         ∧ field reply "events" = Some (JArr events)
         ∧ ∀ ev, ev ∈ events → is_join ev = false).
Proof.
  apply (history_holds_no_join history_sent (after history_sent)
           (log_of history_sent)).
  vm_compute. reflexivity.
Defined.

(** *** Frames that are dropped *)

(** A frame that does not parse, and a message other than a join on a
    session whose room is falsy, change nothing and send nothing, provided
    the frame is not the text null. *)
Lemma dropped_unless_null st ws raw :
  (raw = Unparseable
   ∨ ∃ msg, raw = Parsed msg ∧ msg ≠ JNull ∧ is_join msg = false
            ∧ truthy (room ws) = false) →
  on_message st ws raw = Returned st [].
Proof.
  intros [->|(msg & -> & Hn & Hj & Ht)]; [done|]. by apply on_message_unbound.
Qed.

(** C9. The frame null parses, is not a join, and makes the listener throw
    at [msg.type] instead of dropping it: the run ends there. *)
Theorem null_frame_throws :
  (∀ st ws, on_message st ws (Parsed JNull) = Threw)
  ∧ is_join JNull = false
  ∧ run init [] [Connection; Message 0 (Parsed JNull);
                 Message 0 (Parsed (join_msg "r1" "u1"))] = None
  ∧ ¬ unbound_traffic_dropped.
Proof.
  split; [done|]. split; [done|]. split; [done|].
  intros H.
  assert (on_message init (mkSession 0 OPEN (Some JNull) 0) (Parsed JNull)
          = Returned init []) as Hdrop.
  { apply H. right. by exists JNull. }
  discriminate Hdrop.
Qed.

(** *** Joins, once more *)

Lemma write_back_elem_other ws' cs c :
  c ∈ write_back ws' cs → c = ws' ∨ (c ∈ cs ∧ sid c ≠ sid ws').
Proof.
  unfold write_back. rewrite list_elem_of_fmap. intros (c0 & -> & Hin).
  destruct (sid c0 =? sid ws')%nat eqn:E; [by left|].
  right. split; [done|]. by apply Nat.eqb_neq.
Qed.

Lemma join_store_default (store : gmap roomkey (list json)) key :
  default [] (match store !! key with
              | Some _ => store
              | None => <[key := []]> store
              end !! key)
  = default [] (store !! key).
Proof.
  destruct (store !! key) eqn:E; [by rewrite E | by rewrite lookup_insert_eq].
Qed.

(** A join answers the joiner alone with one history message that names the
    room as the join did, as it is written (an infinite number as null),
    and carries the room's array as it is written; it pushes nothing, keeps
    the array of every room there is and adds an empty one for a room there
    was not, and rebinds no other session. *)
Theorem join_answers_joiner_only st ws msg :
  is_join msg = true →
  ∃ st' reply,
    on_message st ws (Parsed msg) = Returned st' [Send (sid ws) reply]
    ∧ field reply "type" = Some (JStr "history")
    ∧ field reply "room" = wire <$> field msg "room"
    ∧ field reply "events"
      = Some (JArr (map wire
                      (default [] (roomHistory st !! identity (joined ws msg)))))
    ∧ (∀ k h, roomHistory st !! k = Some h → roomHistory st' !! k = Some h)
    ∧ roomHistory st' !! identity (joined ws msg)
      = Some (default [] (roomHistory st !! identity (joined ws msg)))
    ∧ (∀ k, k ≠ identity (joined ws msg) →
            roomHistory st' !! k = roomHistory st !! k)
    ∧ (∀ c, c ∈ clients st' →
            c = joined ws msg ∨ (c ∈ clients st ∧ sid c ≠ sid ws)).
Proof.
  intros Hj. rewrite on_message_join by done. fold (joined ws msg).
  set (key := identity (joined ws msg)). rewrite join_store_default.
  eexists _, _. split; [reflexivity|].
  destruct (history_msg_fields (field msg "room")
              (default [] (roomHistory st !! key))) as (Ht & Hr & He).
  split; [exact Ht|]. split; [exact Hr|]. split; [exact He|]. simpl.
  destruct (roomHistory st !! key) as [h0|] eqn:E.
  - repeat split; try done.
    intros c Hc. by apply write_back_elem_other in Hc.
  - rewrite lookup_insert_eq. simpl. repeat split.
    + intros k h Hk. rewrite lookup_insert_ne; [done|]. congruence.
    + intros k Hk. by rewrite lookup_insert_ne.
    + intros c Hc. by apply write_back_elem_other in Hc.
Qed.

(** A client that has not joined sends a join for r1. *)
Lemma join_answers_joiner_only_witness :
  ∃ st' reply,
    on_message (after one_draws) (mkSession 1 OPEN (Some JNull) 0)
      (Parsed (join_msg "r1" "u2"))
    = Returned st' [Send 1 reply]
    ∧ field reply "type" = Some (JStr "history")
    ∧ field reply "room" = wire <$> field (join_msg "r1" "u2") "room"
    ∧ field reply "events"
      = Some (JArr (map wire (default []
           (roomHistory (after one_draws)
              !! identity (joined (mkSession 1 OPEN (Some JNull) 0)
                             (join_msg "r1" "u2"))))))
    ∧ (∀ k h, roomHistory (after one_draws) !! k = Some h →
              roomHistory st' !! k = Some h)
    ∧ roomHistory st'
        !! identity (joined (mkSession 1 OPEN (Some JNull) 0) (join_msg "r1" "u2"))
      = Some (default []
           (roomHistory (after one_draws)
              !! identity (joined (mkSession 1 OPEN (Some JNull) 0)
                             (join_msg "r1" "u2"))))
    ∧ (∀ k, k ≠ identity (joined (mkSession 1 OPEN (Some JNull) 0)
                            (join_msg "r1" "u2")) →
            roomHistory st' !! k = roomHistory (after one_draws) !! k)
    ∧ (∀ c, c ∈ clients st' →
            c = joined (mkSession 1 OPEN (Some JNull) 0) (join_msg "r1" "u2")
            ∨ (c ∈ clients (after one_draws) ∧ sid c ≠ 1)).
Proof.
  apply (join_answers_joiner_only (after one_draws)
           (mkSession 1 OPEN (Some JNull) 0) (join_msg "r1" "u2")).
  reflexivity.
Defined.

(** A join whose room is falsy (missing, null, false, 0 or the empty string)
    is answered like any other, but binds the session to nothing: every
    later message of the session that is not a join is dropped. *)
Theorem falsy_room_join_binds_nothing st ws msg m :
  is_join msg = true → truthy (field msg "room") = false →
  m ≠ JNull → is_join m = false →
  ∃ st',
    on_message st ws (Parsed msg)
    = Returned st'
        [Send (sid ws)
           (history_msg (field msg "room")
              (default [] (roomHistory st !! identity (joined ws msg))))]
    ∧ on_message st' (joined ws msg) (Parsed m) = Returned st' [].
Proof.
  intros Hj Hf Hn Hm. rewrite on_message_join by done. fold (joined ws msg).
  rewrite join_store_default. eexists. split; [reflexivity|].
  by apply on_message_unbound.
Qed.

Lemma falsy_room_join_binds_nothing_witness :
  ∃ st',
    on_message (after [Connection]) (mkSession 0 OPEN (Some JNull) 0)
      (Parsed (join_msg "" "u1"))
    = Returned st'
        [Send 0
           (history_msg (field (join_msg "" "u1") "room")
              (default []
                 (roomHistory (after [Connection])
                    !! identity (joined (mkSession 0 OPEN (Some JNull) 0)
                                   (join_msg "" "u1")))))]
    ∧ on_message st' (joined (mkSession 0 OPEN (Some JNull) 0) (join_msg "" "u1"))
        (Parsed begin_u1)
      = Returned st' [].
Proof.
  apply (falsy_room_join_binds_nothing (after [Connection])
           (mkSession 0 OPEN (Some JNull) 0) (join_msg "" "u1") begin_u1).
  - reflexivity.
  - reflexivity.
  - discriminate.
  - reflexivity.
Defined.

(** After a join, the session gets no broadcast of any other room, the one
    it was in before included. *)
Theorem rejoined_session_leaves_other_rooms st ws msg st' out k data except d :
  is_join msg = true →
  on_message st ws (Parsed msg) = Returned st' out →
  k ≠ identity (joined ws msg) →
  Send (sid ws) d ∉ broadcast (clients st') k data except.
Proof.
  intros Hj Hrun Hk Hin. rewrite on_message_join in Hrun by done.
  injection Hrun as <- _. simpl in Hin. rewrite broadcast_filter in Hin.
  apply list_elem_of_fmap in Hin as (c & Heq & Hc). injection Heq as Hs _.
  apply list_elem_of_In, filter_In in Hc as [Hc He].
  apply eligible_spec in He as (_ & Hid & _).
  apply list_elem_of_In, write_back_elem_other in Hc as [->|[_ Hne]].
  - by apply Hk.
  - simpl in Hne. congruence.
Qed.

(** The first client of [two_joined] moves to r2 and is not reached by what
    the second one sends in r1. *)
Lemma rejoined_session_leaves_other_rooms_witness :
  Send 0 begin_u1
  ∉ broadcast
      (clients (mkState
         (write_back (joined (mkSession 0 OPEN (Some (JStr "r1")) 1)
                        (join_msg "r2" "u1"))
            (clients (after two_joined)))
         (<[KStr "r2" := []]> (roomHistory (after two_joined)))
         (accepted (after two_joined))))
      (KStr "r1") begin_u1 1.
Proof.
  apply (rejoined_session_leaves_other_rooms (after two_joined)
           (mkSession 0 OPEN (Some (JStr "r1")) 1) (join_msg "r2" "u1") _
           [Send 0 (history_msg (Some (JStr "r2")) [])]).
  - reflexivity.
  - vm_compute. reflexivity.
  - discriminate.
Defined.

(** *** Relaying, once more *)

(** A relayed message changes the array of the sender's room only, leaves
    the sessions as they are, and is sent only to sessions other than the
    sender that are OPEN and bound to that room. *)
Theorem relay_stays_in_room st ws msg st' out :
  msg ≠ JNull → is_join msg = false → truthy (room ws) = true →
  on_message st ws (Parsed msg) = Returned st' out →
  clients st' = clients st
  ∧ (∀ k, k ≠ identity ws → roomHistory st' !! k = roomHistory st !! k)
  ∧ (∀ k ev, Append k ev ∈ out → k = identity ws)
  ∧ (∀ to d, Send to d ∈ out →
       to ≠ sid ws
       ∧ ∃ c, c ∈ clients st ∧ sid c = to ∧ readyState c = OPEN
              ∧ identity c = identity ws).
Proof.
  intros Hn Hj Ht Hrun. destruct (room ws) as [r|] eqn:Hr; [|done].
  rewrite (on_message_relay _ _ _ r) in Hrun by done. simpl in Hrun.
  destruct (roomHistory st !! identity ws) as [h|] eqn:E; [|done].
  injection Hrun as <- <-. simpl. split; [done|]. split; [|split].
  - intros k Hk. by rewrite lookup_insert_ne.
  - intros k ev Hin. apply elem_of_cons in Hin as [[= -> _]|Hin]; [done|].
    rewrite broadcast_filter in Hin.
    by apply list_elem_of_fmap in Hin as (c & Heq & _).
  - intros to d Hin. apply elem_of_cons in Hin as [Heq|Hin]; [done|].
    rewrite broadcast_filter in Hin.
    apply list_elem_of_fmap in Hin as (c & [= -> ->] & Hc).
    apply list_elem_of_In, filter_In in Hc as [Hc He].
    apply eligible_spec in He as (Ho & Hid & Hne).
    split; [done|]. exists c. split; [by apply list_elem_of_In | done].
Qed.

Lemma relay_stays_in_room_witness :
  clients (mkState (clients (after two_joined))
             (<[KStr "r1" := [JObj (set_field "room" (JStr "r1") (spread begin_u1))]]>
                (roomHistory (after two_joined))) 2)
  = clients (after two_joined)
  ∧ (∀ k, k ≠ identity (mkSession 0 OPEN (Some (JStr "r1")) 1) →
       roomHistory (mkState (clients (after two_joined))
             (<[KStr "r1" := [JObj (set_field "room" (JStr "r1") (spread begin_u1))]]>
                (roomHistory (after two_joined))) 2) !! k
       = roomHistory (after two_joined) !! k)
  ∧ (∀ k ev,
       Append k ev
       ∈ [Append (KStr "r1") (JObj (set_field "room" (JStr "r1") (spread begin_u1)));
          Send 1 (JObj (set_field "room" (JStr "r1") (spread begin_u1)))] →
       k = identity (mkSession 0 OPEN (Some (JStr "r1")) 1))
  ∧ (∀ to d,
       Send to d
       ∈ [Append (KStr "r1") (JObj (set_field "room" (JStr "r1") (spread begin_u1)));
          Send 1 (JObj (set_field "room" (JStr "r1") (spread begin_u1)))] →
       to ≠ sid (mkSession 0 OPEN (Some (JStr "r1")) 1)
       ∧ ∃ c, c ∈ clients (after two_joined) ∧ sid c = to ∧ readyState c = OPEN
              ∧ identity c = identity (mkSession 0 OPEN (Some (JStr "r1")) 1)).
Proof.
  apply (relay_stays_in_room (after two_joined)
           (mkSession 0 OPEN (Some (JStr "r1")) 1) begin_u1).
  - discriminate.
  - reflexivity.
  - reflexivity.
  - vm_compute. reflexivity.
Defined.

(** *** The store over time *)

Lemma on_message_grows st ws raw st' out k h :
  on_message st ws raw = Returned st' out →
  roomHistory st !! k = Some h →
  ∃ more, roomHistory st' !! k = Some (h ++ more).
Proof.
  intros Hrun Hk. destruct raw as [|msg].
  { injection Hrun as <- _. exists []. by rewrite app_nil_r. }
  destruct (null_or_not msg) as [->|Hnull]; [done|].
  destruct (is_join msg) eqn:Hj.
  - rewrite on_message_join in Hrun by done. injection Hrun as <- _. simpl.
    exists []. rewrite app_nil_r.
    destruct (roomHistory st !! identity _) eqn:E; [done|].
    rewrite lookup_insert_ne; [done|]. congruence.
  - destruct (truthy (room ws)) eqn:Ht.
    + destruct (room ws) as [r|] eqn:Hr; [|done].
      rewrite (on_message_relay _ _ _ r) in Hrun by done. simpl in Hrun.
      destruct (roomHistory st !! identity ws) as [h0|] eqn:E; [|done].
      injection Hrun as <- _. simpl.
      destruct (decide (identity ws = k)) as [<-|Hne].
      * rewrite lookup_insert_eq. eexists. do 2 f_equal. congruence.
      * rewrite lookup_insert_ne by done. exists []. by rewrite app_nil_r.
    + rewrite on_message_unbound in Hrun by done. injection Hrun as <- _.
      exists []. by rewrite app_nil_r.
Qed.

(** The store is append-only: whatever the server goes through, the array
    of a room is never removed and what it held stays at its front, in
    order. *)
Theorem histories_only_grow es st log st' log' k h :
  run st log es = Some (st', log') →
  roomHistory st !! k = Some h →
  ∃ more, roomHistory st' !! k = Some (h ++ more).
Proof.
  revert st log h.
  induction es as [|e es IH]; intros st log h Hrun Hk; simpl in Hrun.
  - injection Hrun as <- _. exists []. by rewrite app_nil_r.
  - destruct (step st e) as [st1 out|] eqn:E; [|done].
    assert (∃ more, roomHistory st1 !! k = Some (h ++ more)) as [m1 H1].
    { destruct e as [|i raw|i rs|i]; simpl in E.
      - injection E as <- _. exists []. by rewrite app_nil_r.
      - destruct (session st i) as [ws|].
        + by eapply on_message_grows.
        + injection E as <- _. exists []. by rewrite app_nil_r.
      - injection E as <- _. exists []. by rewrite app_nil_r.
      - injection E as <- _. exists []. by rewrite app_nil_r. }
    destruct (IH st1 _ _ Hrun H1) as [m2 H2].
    exists (m1 ++ m2). by rewrite app_assoc.
Qed.

(** The array of r1 holds the begin of the first client; after the second
    has sent a move and the first has left, it still starts with it. *)
Lemma histories_only_grow_witness :
  ∃ more,
    roomHistory
      (after (one_begun ++ [Message 1 (Parsed move_u1); Disconnected 0]))
      !! KStr "r1"
    = Some ([JObj [("type", JStr "begin"); ("room", JStr "r1");
                   ("userId", JStr "u1"); ("color", JStr "#000");
                   ("width", JNum 2); ("p", JArr [JNum 10; JNum 10])]]
            ++ more).
Proof.
  apply (histories_only_grow
           [Message 1 (Parsed move_u1); Disconnected 0]
           (after one_begun) (log_of one_begun) _
           (log_of (one_begun ++ [Message 1 (Parsed move_u1); Disconnected 0]))).
  - vm_compute. reflexivity.
  - vm_compute. reflexivity.
Defined.

(** *** Rooms that are objects *)

Lemma on_message_refs st ws raw st' out :
  ws ∈ clients st → refs_known st →
  on_message st ws raw = Returned st' out → refs_known st'.
Proof.
  intros Hws [Hsid Href] Hrun. destruct raw as [|msg].
  { by injection Hrun as <- _. }
  destruct (null_or_not msg) as [->|Hnull]; [done|].
  destruct (is_join msg) eqn:Hj.
  - rewrite on_message_join in Hrun by done. injection Hrun as <- _.
    fold (joined ws msg). set (ws' := joined ws msg). split; simpl.
    + intros c Hc. apply write_back_elem_other in Hc as [->|[Hc _]].
      * apply (Hsid ws Hws).
      * by apply Hsid.
    + intros o j Hsome.
      assert (is_Some (roomHistory st !! KRef o j)
              ∨ (o = sid ws ∧ j = S (joins ws))) as [Hold|[-> ->]].
      { destruct (roomHistory st !! identity ws') eqn:E; [by left|].
        destruct (decide (identity ws' = KRef o j)) as [Heq|Hne].
        - right. unfold identity, ws', joined in Heq. simpl in Heq.
          destruct (field msg "room") as [[]|]; try discriminate Heq;
            by injection Heq as <- <-.
        - left. by rewrite lookup_insert_ne in Hsome. }
      * destruct (Href o j Hold) as [Ho Hj']. split; [done|].
        intros c Hc Hs. apply write_back_elem_other in Hc as [->|[Hc _]].
        -- simpl in *. specialize (Hj' ws Hws Hs). lia.
        -- by apply Hj'.
      * split; [by apply Hsid|].
        intros c Hc Hs. apply write_back_elem_other in Hc as [->|[_ Hne]].
        -- simpl. lia.
        -- simpl in Hne. done.
  - destruct (truthy (room ws)) eqn:Ht.
    + destruct (room ws) as [r|] eqn:Hr; [|done].
      rewrite (on_message_relay _ _ _ r) in Hrun by done. simpl in Hrun.
      destruct (roomHistory st !! identity ws) as [h0|] eqn:E; [|done].
      injection Hrun as <- _. split; simpl; [done|].
      intros o j Hsome. apply Href.
      destruct (decide (identity ws = KRef o j)) as [<-|Hne]; [by rewrite E|].
      by rewrite lookup_insert_ne in Hsome.
    + rewrite on_message_unbound in Hrun by done. by injection Hrun as <- _.
Qed.

Lemma step_refs st e st' out :
  refs_known st → step st e = Returned st' out → refs_known st'.
Proof.
  intros [Hsid Href] Hs. destruct e as [|i raw|i rs|i]; simpl in Hs.
  - injection Hs as <- _. split; simpl.
    + intros c Hc. apply elem_of_app in Hc as [Hc|Hc].
      * specialize (Hsid c Hc). lia.
      * apply list_elem_of_singleton in Hc. subst c. simpl. lia.
    + intros o j Hsome. destruct (Href o j Hsome) as [Ho Hj]. split; [lia|].
      intros c Hc Hs. apply elem_of_app in Hc as [Hc|Hc]; [by apply Hj|].
      apply list_elem_of_singleton in Hc. subst c. simpl in Hs. lia.
  - destruct (session st i) as [ws|] eqn:E.
    + apply session_elem in E as [Hin _]. by eapply on_message_refs.
    + by injection Hs as <- _.
  - injection Hs as <- _. split; simpl.
    + intros c Hc. apply list_elem_of_fmap in Hc as (c0 & -> & Hc).
      specialize (Hsid c0 Hc). by destruct (sid c0 =? i)%nat.
    + intros o j Hsome. destruct (Href o j Hsome) as [Ho Hj]. split; [done|].
      intros c Hc Hs. apply list_elem_of_fmap in Hc as (c0 & -> & Hc).
      specialize (Hj c0 Hc). by destruct (sid c0 =? i)%nat; apply Hj.
  - injection Hs as <- _. split; simpl.
    + intros c Hc. apply list_elem_of_In, filter_In in Hc as [Hc _].
      by apply Hsid, list_elem_of_In.
    + intros o j Hsome. destruct (Href o j Hsome) as [Ho Hj]. split; [done|].
      intros c Hc Hs. apply list_elem_of_In, filter_In in Hc as [Hc _].
      by apply Hj; [apply list_elem_of_In|].
Qed.

Lemma run_refs es st log st' log' :
  refs_known st → run st log es = Some (st', log') → refs_known st'.
Proof.
  revert st log. induction es as [|e es IH]; intros st log Hr Hrun; simpl in Hrun.
  - by injection Hrun as <- _.
  - destruct (step st e) as [st1 out|] eqn:E; [|done].
    eapply IH; [|exact Hrun]. by eapply step_refs.
Qed.

Lemma init_refs : refs_known init.
Proof.
  split; [intros c Hc; inversion Hc|].
  intros o j [h Hh]. simpl in Hh. by rewrite lookup_empty in Hh.
Qed.

(** A join whose room is an object or an array always opens a room of its
    own: the history it is sent is empty, and no session but the joiner is
    in that room, since no other frame can name the same object. *)
Theorem object_room_is_always_new es st log i ws msg :
  run init [] es = Some (st, log) →
  session st i = Some ws →
  is_join msg = true → is_object (field msg "room") = true →
  ∃ st',
    on_message st ws (Parsed msg)
    = Returned st' [Send i (history_msg (field msg "room") [])]
    ∧ roomHistory st !! identity (joined ws msg) = None
    ∧ ∀ c, c ∈ clients st' → identity c = identity (joined ws msg) → sid c = i.
Proof.
  intros Hrun Hs Hj Hobj. apply (run_refs _ _ _ _ _ init_refs) in Hrun as [_ Href].
  destruct (session_elem _ _ _ Hs) as [Hws Hi].
  assert (identity (joined ws msg) = KRef (sid ws) (S (joins ws))) as Hkey.
  { unfold identity, joined. simpl. by destruct (field msg "room") as [[]|]. }
  assert (roomHistory st !! identity (joined ws msg) = None) as Hnone.
  { rewrite Hkey. destruct (roomHistory st !! KRef _ _) eqn:E; [|done].
    destruct (Href (sid ws) (S (joins ws))) as [_ Hle]; [by rewrite E|].
    specialize (Hle ws Hws eq_refl). lia. }
  rewrite on_message_join by done. fold (joined ws msg).
  rewrite join_store_default, Hnone, Hi. simpl.
  eexists. split; [reflexivity|]. split; [done|].
  intros c Hc Hid. rewrite Hkey in Hid. unfold identity in Hid.
  destruct (room c) as [[]|]; try discriminate Hid; injection Hid as -> _; done.
Qed.

(** The client of [object_joined] joins again with an object of the same
    content. *)
Lemma object_room_is_always_new_witness :
  ∃ st',
    on_message (after object_joined)
      (mkSession 0 OPEN (Some (JObj [("name", JStr "r1")])) 1)
      (Parsed object_room_msg)
    = Returned st' [Send 0 (history_msg (field object_room_msg "room") [])]
    ∧ roomHistory (after object_joined)
        !! identity (joined (mkSession 0 OPEN (Some (JObj [("name", JStr "r1")])) 1)
                       object_room_msg)
      = None
    ∧ ∀ c, c ∈ clients st' →
        identity c
        = identity (joined (mkSession 0 OPEN (Some (JObj [("name", JStr "r1")])) 1)
                      object_room_msg) →
        sid c = 0.
Proof.
  apply (object_room_is_always_new object_joined (after object_joined)
           (log_of object_joined) 0
           (mkSession 0 OPEN (Some (JObj [("name", JStr "r1")])) 1)
           object_room_msg).
  - vm_compute. reflexivity.
  - vm_compute. reflexivity.
  - reflexivity.
  - reflexivity.
Defined.

(** *** Frames that do no harm *)

(** An unparseable frame on a session in r1, and a begin on one that has not
    joined. *)
Lemma dropped_unless_null_witness :
  on_message (after two_joined) (mkSession 0 OPEN (Some (JStr "r1")) 1) Unparseable
  = Returned (after two_joined) []
  ∧ on_message (after [Connection]) (mkSession 0 OPEN (Some JNull) 0)
      (Parsed begin_u1)
    = Returned (after [Connection]) [].
Proof.
  split.
  - apply (dropped_unless_null (after two_joined)
             (mkSession 0 OPEN (Some (JStr "r1")) 1) Unparseable).
    by left.
  - apply (dropped_unless_null (after [Connection])
             (mkSession 0 OPEN (Some JNull) 0) (Parsed begin_u1)).
    right. exists begin_u1. by repeat split.
Defined.

Lemma step_returns st log e :
  consistent st log → null_frame e = false →
  ∃ st' out, step st e = Returned st' out.
Proof.
  intros [_ Hbound] Hn. destruct e as [|i raw|i rs|i]; simpl; eauto.
  destruct (session st i) as [ws|] eqn:E; [|eauto].
  apply session_elem in E as [Hws _].
  destruct raw as [|msg]; [simpl; eauto|].
  destruct (null_or_not msg) as [->|Hnull]; [done|].
  destruct (is_join msg) eqn:Hj.
  - rewrite on_message_join by done. eauto.
  - destruct (truthy (room ws)) eqn:Ht.
    + destruct (room ws) as [r|] eqn:Hr; [|done].
      rewrite (on_message_relay _ _ _ r) by done. simpl.
      destruct (Hbound ws Hws) as [h Hh]; [by rewrite Hr|].
      rewrite Hh. eauto.
    + rewrite on_message_unbound by done. eauto.
Qed.

(** The server gets through any traffic in which no frame is the text null:
    no handler throws, and in particular a relayed message always finds the
    array of its room. *)
Theorem survives_all_but_null es :
  forallb (λ e, negb (null_frame e)) es = true →
  ∃ st log, run init [] es = Some (st, log).
Proof.
  intros Hes.
  cut (∀ st log, consistent st log → ∃ st' log', run st log es = Some (st', log')).
  { intros H. apply H, init_consistent. }
  induction es as [|e es IH]; intros st log Hc; simpl; [eauto|].
  simpl in Hes. apply andb_true_iff in Hes as [He Hes].
  apply negb_true_iff in He.
  destruct (step_returns st log e Hc He) as (st1 & out & Hs). rewrite Hs.
  apply IH; [done|]. by eapply step_consistent.
Qed.

Lemma survives_all_but_null_witness :
  ∃ st log, run init [] one_draws = Some (st, log).
Proof.
  apply (survives_all_but_null one_draws). reflexivity.
Defined.

End ServerProofs.

(** ** The client *)

Module ClientProofs.
Import Client.

(** *** Remote stroke reconstruction *)

Lemma final_point_last p0 rest d :
  final_point (p0 :: rest) = Some (List.last (p0 :: rest) d).
Proof.
  revert p0. induction rest as [|p rest IH]; intros p0; [done|].
  change (final_point (p0 :: p :: rest)) with (final_point (p :: rest)).
  rewrite IH. done.
Qed.

Lemma same_wire_refl c : same_wire c c.
Proof. by repeat split. Qed.

Lemma same_wire_trans c1 c2 c3 :
  same_wire c1 c2 → same_wire c2 c3 → same_wire c1 c3.
Proof.
  unfold same_wire. intros (?&?&?&?&?&?&?) (?&?&?&?&?&?&?).
  repeat split; try congruence. auto.
Qed.

Lemma handleRemoteEvent_wire c m : same_wire c (handleRemoteEvent c m).
Proof.
  unfold handleRemoteEvent. destruct (ctx c) eqn:E; [|apply same_wire_refl].
  destruct m; unfold same_wire; simpl; repeat split; eauto.
Qed.

Lemma replay_wire events c : same_wire c (foldl handleRemoteEvent c events).
Proof.
  revert c. induction events as [|m events IH]; intros c; simpl.
  - apply same_wire_refl.
  - eapply same_wire_trans; [apply handleRemoteEvent_wire | apply IH].
Qed.

Lemma onmessage_wire c data : same_wire c (onmessage c data).
Proof.
  unfold onmessage. destruct data as [[m|r events]|]; [| |apply same_wire_refl].
  - destruct (ctx c); [apply handleRemoteEvent_wire | apply same_wire_refl].
  - destruct (ctx c) eqn:E; [|apply same_wire_refl].
    eapply same_wire_trans; [|apply replay_wire].
    unfold same_wire. simpl. repeat split; eauto.
Qed.

Lemma handleRemoteEvent_track c m :
  is_Some (ctx c) →
  remoteStroke (handleRemoteEvent c m) = track (remoteStroke c) m.
Proof.
  intros [calls E]. unfold handleRemoteEvent. rewrite E. by destruct m.
Qed.

Lemma replay_track events c :
  is_Some (ctx c) →
  remoteStroke (foldl handleRemoteEvent c events)
  = foldl track (remoteStroke c) events.
Proof.
  revert c. induction events as [|m events IH]; intros c Hc; [done|].
  simpl. rewrite IH.
  - by rewrite handleRemoteEvent_track.
  - by apply handleRemoteEvent_wire.
Qed.

(** A replay does not depend on the strokes known before it. *)
Lemma history_rebuilds c r events :
  is_Some (ctx c) →
  remoteStroke (onmessage c (Some (HistoryMsg r events))) = foldl track ∅ events.
Proof.
  intros [calls E]. unfold onmessage. rewrite E.
  rewrite replay_track; [done|]. simpl. by rewrite E.
Qed.

(** C6. Replaying the same History snapshot a second time leaves the same
    per-user states as the first replay did. *)
Theorem history_replay_idempotent c r events :
  remoteStroke (onmessage (onmessage c (Some (HistoryMsg r events)))
                  (Some (HistoryMsg r events)))
  = remoteStroke (onmessage c (Some (HistoryMsg r events))).
Proof.
  destruct (ctx c) as [calls|] eqn:E.
  - assert (is_Some (ctx c)) as Hc by (by rewrite E).
    rewrite history_rebuilds.
    + by rewrite history_rebuilds.
    + by apply onmessage_wire.
  - unfold onmessage. rewrite E. by rewrite E.
Qed.

(** C8. A move with points for a user without a stored last point draws the
    polyline through exactly these points, from the first one on, and
    leaves the user drawing with the final point as last. *)
Theorem move_without_last_draws_points c calls r u p0 rest :
  ctx c = Some calls →
  last (default (mkStroke false None) (remoteStroke c !! u)) = None →
  let c' := handleRemoteEvent c (MoveMsg r u (p0 :: rest)) in
  ctx c' = Some (calls ++ [BeginPath; MoveTo p0] ++ map LineTo rest ++ [Stroke])
  ∧ remoteStroke c' !! u
    = Some (mkStroke true (Some (List.last (p0 :: rest) p0)))
  ∧ onmessage c (Some (Live (MoveMsg r u (p0 :: rest)))) = c'.
Proof.
  intros Hc Hl. unfold onmessage, handleRemoteEvent. rewrite Hc. simpl.
  rewrite Hl. split; [done|]. split; [|done].
  rewrite lookup_insert_eq. f_equal. f_equal.
  apply (final_point_last p0 rest p0).
Qed.

(** A move of three points from a user never seen before. *)
Lemma move_without_last_draws_points_witness :
  let c' := handleRemoteEvent ready_u1
              (MoveMsg "r1" "u9" [(12, 12)%Z; (14, 14)%Z; (15, 11)%Z]) in
  ctx c' = Some ([Setup] ++ [BeginPath; MoveTo (12, 12)%Z]
                 ++ map LineTo [(14, 14)%Z; (15, 11)%Z] ++ [Stroke])
  ∧ remoteStroke c' !! "u9"
    = Some (mkStroke true
              (Some (List.last [(12, 12)%Z; (14, 14)%Z; (15, 11)%Z] (12, 12)%Z)))
  ∧ onmessage ready_u1
      (Some (Live (MoveMsg "r1" "u9" [(12, 12)%Z; (14, 14)%Z; (15, 11)%Z]))) = c'.
Proof.
  apply (move_without_last_draws_points ready_u1 [Setup] "r1" "u9" (12, 12)%Z
           [(14, 14)%Z; (15, 11)%Z]).
  - vm_compute. reflexivity.
  - vm_compute. reflexivity.
Defined.

(** An empty move draws nothing, but sets drawing and clears last. *)
Lemma empty_move_state c calls r u :
  ctx c = Some calls →
  let c' := handleRemoteEvent c (MoveMsg r u []) in
  ctx c' = Some calls ∧ remoteStroke c' !! u = Some (mkStroke true None).
Proof.
  intros Hc. unfold handleRemoteEvent. rewrite Hc. simpl.
  by rewrite lookup_insert_eq.
Qed.

(** C4. On a peer that holds (10, 10) as the last point of u1, a move of u1
    with no points draws nothing but forgets that point, so that the next
    move starts a path of its own: the empty move is not a no-op. *)
Theorem empty_move_clears_last :
  remoteStroke watching_u1 !! "u1" = Some (mkStroke true (Some (10, 10)%Z))
  ∧ ctx (handleRemoteEvent watching_u1 (MoveMsg "r1" "u1" [])) = ctx watching_u1
  ∧ remoteStroke (handleRemoteEvent watching_u1 (MoveMsg "r1" "u1" [])) !! "u1"
    = Some (mkStroke true None)
  ∧ ¬ empty_move_is_noop.
Proof.
  split; [by vm_compute|]. split; [by vm_compute|]. split; [by vm_compute|].
  intros H. destruct (H watching_u1 "r1" "u1") as [_ Hs].
  vm_compute in Hs. discriminate Hs.
Qed.

(** *** Local batching *)

Lemma ws_open_ready c : ws_open c = true ↔ socket_ready c.
Proof.
  unfold ws_open, socket_ready. destruct (ws c) as [s|].
  - rewrite bool_decide_eq_true. split; [eauto|]. by intros (s' & [= <-] & H).
  - split; [done|]. by intros (s' & H & _).
Qed.

Lemma flush_ready r c :
  ws_open c = true → moveBuffer c ≠ [] →
  flushMoveBuffer r c
  = send (MoveMsg r (userId c) (moveBuffer c)) (set_moveBuffer [] c).
Proof.
  intros Ho Hb. unfold flushMoveBuffer. rewrite Ho. simpl.
  by destruct (moveBuffer c).
Qed.

Lemma flush_idle r c :
  ws_open c = false ∨ moveBuffer c = [] → flushMoveBuffer r c = c.
Proof.
  unfold flushMoveBuffer. intros [->|Hb]; [done|].
  destruct (ws_open c); simpl; [|done]. by rewrite Hb.
Qed.

Lemma snoc_differs {A} (l : list A) x : l ++ [x] ≠ l.
Proof.
  intros H. apply (f_equal length) in H. rewrite length_app in H.
  simpl in H. lia.
Qed.

Lemma flush_carries r c :
  Forall (λ m, carries_points m = true) (sent c) →
  Forall (λ m, carries_points m = true) (sent (flushMoveBuffer r c)).
Proof.
  intros H. destruct (ws_open c) eqn:Ho.
  - destruct (moveBuffer c) as [|p pts] eqn:Hb.
    + rewrite flush_idle; auto.
    + rewrite flush_ready by (by rewrite ?Hb). simpl.
      apply Forall_app. split; [done|]. rewrite Hb. by repeat constructor.
  - rewrite flush_idle; auto.
Qed.

Lemma turn_carries c i :
  Forall (λ m, carries_points m = true) (sent c) →
  Forall (λ m, carries_points m = true) (sent (turn c i)).
Proof.
  intros H. destruct i; simpl.
  - unfold onPointerDown. destruct (ctx c); [|done].
    destruct (negb (canvas c) || negb (ws_open c)); [done|]. simpl.
    apply Forall_app. split; [done|]. by repeat constructor.
  - unfold onPointerMove. destruct (negb (localDrawing c)); [done|].
    destruct (ctx c); [|done]. unfold scheduleFlush. simpl.
    by destruct (flushTimer c).
  - unfold onPointerUp. destruct (negb (localDrawing c)); [done|].
    destruct (negb (canvas c) || negb (ws_open c)); [done|].
    unfold send at 1. simpl. apply Forall_app. split.
    + by apply flush_carries.
    + by repeat constructor.
  - destruct (flushTimer c); [|done]. by apply flush_carries.
  - destruct (ws c) as [[[] room_]|] eqn:Hws; try done.
    unfold onopen. rewrite Hws. simpl.
    apply Forall_app. split; [done|]. by repeat constructor.
  - unfold onclose. by destruct (ws c).
  - destruct (onmessage_wire c data) as (_ & _ & -> & _). done.
  - unfold changeRoom, setupCanvas. by destruct (canvas c).
  - done.
  - done.
  - done.
  - unfold setupCanvas. by destruct (canvas c).
Qed.

Lemma turns_carries is_ c :
  Forall (λ m, carries_points m = true) (sent c) →
  Forall (λ m, carries_points m = true) (sent (turns c is_)).
Proof.
  revert c. induction is_ as [|i is_ IH]; intros c H; [done|].
  simpl. apply IH. by apply turn_carries.
Qed.

(** C10. [flushMoveBuffer] sends a move exactly when the socket exists, is
    OPEN and the buffer holds points; the move then carries the buffered
    points in order and the buffer is emptied; otherwise nothing changes.
    So no move that the client ever sends has an empty [pts]. *)
Theorem flushMoveBuffer_sends_when_ready r c :
  (sent (flushMoveBuffer r c) ≠ sent c ↔ socket_ready c ∧ moveBuffer c ≠ [])
  ∧ (socket_ready c ∧ moveBuffer c ≠ [] →
     sent (flushMoveBuffer r c)
     = sent c ++ [MoveMsg r (userId c) (moveBuffer c)]
     ∧ moveBuffer (flushMoveBuffer r c) = [])
  ∧ (¬ (socket_ready c ∧ moveBuffer c ≠ []) → flushMoveBuffer r c = c)
  ∧ (∀ uid is_,
       Forall (λ m, carries_points m = true) (sent (turns (mounted uid) is_))).
Proof.
  assert (socket_ready c ∧ moveBuffer c ≠ [] →
          sent (flushMoveBuffer r c)
          = sent c ++ [MoveMsg r (userId c) (moveBuffer c)]
          ∧ moveBuffer (flushMoveBuffer r c) = []) as Hsend.
  { intros [Hr Hb]. apply ws_open_ready in Hr. by rewrite flush_ready. }
  assert (¬ (socket_ready c ∧ moveBuffer c ≠ []) → flushMoveBuffer r c = c)
    as Hidle.
  { intros Hn. apply flush_idle. destruct (ws_open c) eqn:Ho; [|auto].
    right. destruct (moveBuffer c) eqn:Hb; [done|].
    destruct Hn. split; [by apply ws_open_ready | done]. }
  split; [|split; [exact Hsend|split; [exact Hidle|]]].
  - split.
    + intros Hne. destruct (ws_open c) eqn:Ho.
      * destruct (moveBuffer c) eqn:Hb.
        -- rewrite flush_idle in Hne; auto. done.
        -- split; [by apply ws_open_ready | done].
      * rewrite flush_idle in Hne; auto. done.
    + intros H. destruct (Hsend H) as [-> _]. apply snoc_differs.
  - intros uid is_. apply turns_carries. constructor.
Qed.

(** *** A whole stroke *)

Lemma stroke_turn c i :
  stroke_inv c → within_stroke i = true → ws_open (turn c i) = true →
  stroke_inv (turn c i) ∧ userId (turn c i) = userId c
  ∧ ∃ moves,
      sent (turn c i) = sent c ++ moves
      ∧ Forall (λ m, is_move m = true) moves
      ∧ concat (map move_pts moves) ++ moveBuffer (turn c i)
        = moveBuffer c ++ samples [i].
Proof.
  intros (Hd & Hc & Hx & Ho) Hw Hopen.
  assert (∀ c', same_wire c c' → ws_open c' = true) as Hsame_open.
  { intros c' (_ & Hws & _). unfold ws_open. rewrite Hws. exact Ho. }
  assert (∀ c', same_wire c c' →
            stroke_inv c' ∧ userId c' = userId c
            ∧ ∃ moves, sent c' = sent c ++ moves
                ∧ Forall (λ m, is_move m = true) moves
                ∧ concat (map move_pts moves) ++ moveBuffer c'
                  = moveBuffer c ++ []) as Hsame.
  { intros c' Hs. pose proof (Hsame_open c' Hs) as Ho'.
    destruct Hs as (H1 & H2 & H3 & H4 & H5 & H6 & H7).
    split; [unfold stroke_inv; rewrite H4, H1; auto|]. split; [done|].
    exists []. rewrite H3, H5, !app_nil_r. by split. }
  destruct i; try discriminate Hw; simpl in *.
  - (* a sample *)
    unfold onPointerMove in *. rewrite Hd in *. simpl in *.
    destruct Hx as [calls Hx]. rewrite Hx in *.
    unfold scheduleFlush in *. simpl in *.
    destruct (flushTimer c); simpl.
    + split; [by repeat split; eauto|]. split; [done|].
      exists []. by rewrite app_nil_r.
    + split; [by repeat split; eauto|]. split; [done|].
      exists []. by rewrite app_nil_r.
  - (* the timer *)
    destruct (flushTimer c) as [r|] eqn:Ht.
    + unfold onFlushTimer in *.
      set (c1 := set_flushTimer None c) in *.
      assert (ws_open c1 = true) as Ho1 by exact Ho.
      destruct (moveBuffer c) as [|p pts] eqn:Hb.
      * rewrite flush_idle by (by right). apply Hsame.
        unfold same_wire. simpl. by repeat split.
      * rewrite flush_ready by (try done; simpl; by rewrite Hb). simpl.
        split; [by repeat split|]. split; [done|].
        exists [MoveMsg r (userId c) (moveBuffer c)].
        rewrite Hb. simpl. rewrite !app_nil_r. by repeat constructor.
    + apply Hsame, same_wire_refl.
  - (* the socket opens: it is OPEN already *)
    unfold ws_open in Ho. destruct (ws c) as [[[] room_]|] eqn:Hws; try done.
    apply Hsame, same_wire_refl.
  - (* the socket closes *)
    unfold onclose, ws_open in *. destruct (ws c) as [s|] eqn:Hws; [|done].
    simpl in Hopen. done.
  - apply Hsame, onmessage_wire.
  - (* a new socket is CONNECTING *)
    unfold changeRoom, connectWs, ws_open in Hopen. simpl in Hopen. done.
  - apply (Hsame (set_room r c)). unfold same_wire. simpl. by repeat split.
  - apply (Hsame (set_color col c)). unfold same_wire. simpl. by repeat split.
  - apply (Hsame (set_width w c)). unfold same_wire. simpl. by repeat split.
  - apply (Hsame (setupCanvas c)). unfold setupCanvas. rewrite Hc.
    unfold same_wire. simpl. repeat split; eauto.
Qed.

Lemma stroke_turns is_ c :
  stroke_inv c → forallb within_stroke is_ = true → stays_open c is_ →
  stroke_inv (turns c is_) ∧ userId (turns c is_) = userId c
  ∧ ∃ moves,
      sent (turns c is_) = sent c ++ moves
      ∧ Forall (λ m, is_move m = true) moves
      ∧ concat (map move_pts moves) ++ moveBuffer (turns c is_)
        = moveBuffer c ++ samples is_.
Proof.
  revert c. induction is_ as [|i is_ IH]; intros c Hinv Hw Hopen.
  - split; [done|]. split; [done|]. exists []. simpl.
    by rewrite !app_nil_r.
  - simpl in Hw. apply andb_true_iff in Hw as [Hwi Hw].
    destruct Hopen as [Ho Hopen].
    destruct (stroke_turn c i Hinv Hwi Ho) as (Hinv1 & Hu1 & m1 & Hs1 & Hm1 & Hp1).
    destruct (IH (turn c i) Hinv1 Hw Hopen) as (Hinv2 & Hu2 & m2 & Hs2 & Hm2 & Hp2).
    split; [done|]. split; [simpl; congruence|].
    exists (m1 ++ m2). simpl. rewrite Hs2, Hs1, <-app_assoc.
    split; [done|]. split; [by apply Forall_app|].
    rewrite map_app, concat_app, <-app_assoc, Hp2.
    rewrite !app_assoc, Hp1, <-app_assoc. f_equal. by destruct i.
Qed.

(** C5. While the socket stays OPEN, the moves sent between the begin and
    the end of a stroke carry, one after the other, exactly the points that
    were buffered: those sampled during the stroke, in order, each once
    (after any points that were still buffered when the stroke began).  The
    end is sent last and leaves the buffer empty. *)
Theorem stroke_points_sent_once c0 p0 is_ :
  accepts_pointer c0 = true →
  forallb within_stroke is_ = true →
  stays_open (onPointerDown c0 p0) is_ →
  let c1 := turns (onPointerDown c0 p0) is_ in
  let c2 := onPointerUp c1 in
  ∃ moves,
    sent c2
    = sent c0 ++ [BeginMsg (room c0) (userId c0) (color c0) (width c0) p0]
      ++ moves ++ [EndMsg (room c1) (userId c0)]
    ∧ Forall (λ m, is_move m = true) moves
    ∧ concat (map move_pts moves) = moveBuffer c0 ++ samples is_
    ∧ moveBuffer c2 = [].
Proof.
  intros Hacc Hw Hopen. unfold accepts_pointer in Hacc.
  apply andb_true_iff in Hacc as [Hacc Ho].
  apply andb_true_iff in Hacc as [Hc Hx].
  apply bool_decide_eq_true in Hx as [calls Ex].
  assert (onPointerDown c0 p0
          = send (BeginMsg (room c0) (userId c0) (color c0) (width c0) p0)
              (set_ctx (Some (calls ++ [SetStrokeStyle (color c0);
                                        SetLineWidth (width c0);
                                        BeginPath; MoveTo p0]))
                 (set_localLast (Some p0) (set_localDrawing true c0)))) as Hdown.
  { unfold onPointerDown. by rewrite Ex, Hc, Ho. }
  intros c1 c2. subst c2 c1. rewrite Hdown in *.
  set (d := send _ _) in *.
  assert (stroke_inv d) as Hinv.
  { unfold stroke_inv. simpl. repeat split; eauto. }
  destruct (stroke_turns is_ d Hinv Hw Hopen)
    as ((Hd1 & Hc1 & _ & Ho1) & Hu & moves & Hs & Hm & Hp).
  set (c1 := turns d is_) in *. simpl in Hs, Hu, Hp.
  unfold onPointerUp. rewrite Hd1, Hc1, Ho1. simpl.
  set (u := set_localLast None (set_localDrawing false c1)).
  assert (ws_open u = true) as Hou by exact Ho1.
  destruct (moveBuffer c1) as [|p pts] eqn:Hb.
  - rewrite flush_idle by (by right). exists moves. simpl.
    rewrite Hs, Hu, <-!app_assoc. rewrite app_nil_r in Hp. by repeat split.
  - rewrite flush_ready by (try done; simpl; by rewrite Hb). simpl.
    exists (moves ++ [MoveMsg (room c1) (userId c1) (moveBuffer c1)]).
    rewrite Hs, Hu, <-!app_assoc. split; [done|]. split.
    + apply Forall_app. split; [done|]. by repeat constructor.
    + rewrite map_app, concat_app. simpl. rewrite app_nil_r, Hb. by split.
Qed.

(** A stroke of [three_samples] by [ready_u1]. *)
Lemma stroke_points_sent_once_witness :
  let c1 := turns (onPointerDown ready_u1 (10, 10)%Z) three_samples in
  let c2 := onPointerUp c1 in
  ∃ moves,
    sent c2
    = sent ready_u1
      ++ [BeginMsg (room ready_u1) (userId ready_u1) (color ready_u1)
            (width ready_u1) (10, 10)%Z]
      ++ moves ++ [EndMsg (room c1) (userId ready_u1)]
    ∧ Forall (λ m, is_move m = true) moves
    ∧ concat (map move_pts moves) = moveBuffer ready_u1 ++ samples three_samples
    ∧ moveBuffer c2 = [].
Proof.
  apply (stroke_points_sent_once ready_u1 (10, 10)%Z three_samples).
  - vm_compute. reflexivity.
  - vm_compute. reflexivity.
  - vm_compute. repeat split.
Defined.

(** *** Remote strokes, once more *)

Lemma final_point_nonempty pts d :
  pts ≠ [] → final_point pts = Some (List.last pts d).
Proof. destruct pts as [|p rest]; [done|]. intros _. apply final_point_last. Qed.

(** A move with points for a user whose last point is stored draws from
    that point through all the points, and stores the final one. *)
Theorem move_continues_from_last c calls r u f p0 rest :
  ctx c = Some calls →
  last (default (mkStroke false None) (remoteStroke c !! u)) = Some f →
  let c' := handleRemoteEvent c (MoveMsg r u (p0 :: rest)) in
  ctx c' = Some (calls ++ [BeginPath; MoveTo f] ++ map LineTo (p0 :: rest)
                 ++ [Stroke])
  ∧ remoteStroke c' !! u
    = Some (mkStroke true (Some (List.last (p0 :: rest) p0))).
Proof.
  intros Hc Hl. unfold handleRemoteEvent. rewrite Hc. simpl. rewrite Hl.
  split; [done|]. rewrite lookup_insert_eq. do 2 f_equal.
  apply (final_point_last p0 rest p0).
Qed.

Lemma move_continues_from_last_witness :
  let c' := handleRemoteEvent watching_u1
              (MoveMsg "r1" "u1" [(12, 12)%Z; (14, 14)%Z]) in
  ctx c' = Some ([Setup; SetStrokeStyle "#000"; SetLineWidth 2%Z; BeginPath;
                  MoveTo (10, 10)%Z]
                 ++ [BeginPath; MoveTo (10, 10)%Z]
                 ++ map LineTo [(12, 12)%Z; (14, 14)%Z] ++ [Stroke])
  ∧ remoteStroke c' !! "u1"
    = Some (mkStroke true (Some (List.last [(12, 12)%Z; (14, 14)%Z] (12, 12)%Z))).
Proof.
  apply (move_continues_from_last watching_u1
           [Setup; SetStrokeStyle "#000"; SetLineWidth 2%Z; BeginPath;
            MoveTo (10, 10)%Z] "r1" "u1" (10, 10)%Z (12, 12)%Z [(14, 14)%Z]).
  - vm_compute. reflexivity.
  - vm_compute. reflexivity.
Defined.

(** A remote event changes the stored state of its own user at most. *)
Theorem remote_event_touches_one_user c m v :
  v ≠ msg_userId m →
  remoteStroke (handleRemoteEvent c m) !! v = remoteStroke c !! v.
Proof.
  intros Hv. unfold handleRemoteEvent. destruct (ctx c); [|done].
  destruct m; simpl in *; try done; by rewrite lookup_insert_ne.
Qed.

Lemma remote_event_touches_one_user_witness :
  remoteStroke (handleRemoteEvent watching_u1 (EndMsg "r1" "u7")) !! "u1"
  = remoteStroke watching_u1 !! "u1".
Proof.
  apply (remote_event_touches_one_user watching_u1 (EndMsg "r1" "u7") "u1").
  discriminate.
Defined.

(** Two non-empty moves of a user in a row join up: the second one draws
    from the final point of the first. *)
Theorem consecutive_moves_connect c calls r u pts q rest :
  ctx c = Some calls → pts ≠ [] →
  let c1 := handleRemoteEvent c (MoveMsg r u pts) in
  ∃ calls1,
    ctx c1 = Some calls1
    ∧ ctx (handleRemoteEvent c1 (MoveMsg r u (q :: rest)))
      = Some (calls1 ++ [BeginPath; MoveTo (List.last pts q)]
              ++ map LineTo (q :: rest) ++ [Stroke]).
Proof.
  intros Hc Hp. cbv zeta. unfold handleRemoteEvent. rewrite Hc. simpl.
  eexists. split; [reflexivity|].
  rewrite lookup_insert_eq. simpl.
  by rewrite (final_point_nonempty pts q).
Qed.

Lemma consecutive_moves_connect_witness :
  let c1 := handleRemoteEvent ready_u1 (MoveMsg "r1" "u9" [(1, 2)%Z; (3, 4)%Z]) in
  ∃ calls1,
    ctx c1 = Some calls1
    ∧ ctx (handleRemoteEvent c1 (MoveMsg "r1" "u9" [(5, 6)%Z; (7, 8)%Z]))
      = Some (calls1 ++ [BeginPath; MoveTo (List.last [(1, 2)%Z; (3, 4)%Z] (5, 6)%Z)]
              ++ map LineTo [(5, 6)%Z; (7, 8)%Z] ++ [Stroke]).
Proof.
  apply (consecutive_moves_connect ready_u1 [Setup] "r1" "u9"
           [(1, 2)%Z; (3, 4)%Z] (5, 6)%Z [(7, 8)%Z]).
  - vm_compute. reflexivity.
  - discriminate.
Defined.

(** After an end, the next move of that user with points starts a path of
    its own at its first point, whatever the user had drawn before. *)
Theorem move_after_end_starts_anew c calls r u p0 rest :
  ctx c = Some calls →
  let c1 := handleRemoteEvent c (EndMsg r u) in
  remoteStroke c1 !! u = Some (mkStroke false None)
  ∧ ctx (handleRemoteEvent c1 (MoveMsg r u (p0 :: rest)))
    = Some (calls ++ [BeginPath; MoveTo p0] ++ map LineTo rest ++ [Stroke]).
Proof.
  intros Hc. cbv zeta. unfold handleRemoteEvent. rewrite Hc. simpl. rewrite Hc.
  by rewrite !lookup_insert_eq.
Qed.

Lemma move_after_end_starts_anew_witness :
  let c1 := handleRemoteEvent watching_u1 (EndMsg "r1" "u1") in
  remoteStroke c1 !! "u1" = Some (mkStroke false None)
  ∧ ctx (handleRemoteEvent c1 (MoveMsg "r1" "u1" [(12, 12)%Z; (14, 14)%Z]))
    = Some ([Setup; SetStrokeStyle "#000"; SetLineWidth 2%Z; BeginPath;
             MoveTo (10, 10)%Z]
            ++ [BeginPath; MoveTo (12, 12)%Z] ++ map LineTo [(14, 14)%Z]
            ++ [Stroke]).
Proof.
  apply (move_after_end_starts_anew watching_u1
           [Setup; SetStrokeStyle "#000"; SetLineWidth 2%Z; BeginPath;
            MoveTo (10, 10)%Z] "r1" "u1" (12, 12)%Z [(14, 14)%Z]).
  vm_compute. reflexivity.
Defined.

Lemma stroke_style_app calls col rest :
  (∀ col', SetStrokeStyle col' ∉ rest) →
  stroke_style (calls ++ SetStrokeStyle col :: rest) = Some col.
Proof.
  unfold stroke_style. rewrite foldl_app. simpl.
  generalize (foldl (λ cur call, match call with
                                 | SetStrokeStyle c0 => Some c0
                                 | _ => cur
                                 end) None calls).
  intros _ Hrest. induction rest as [|call rest IH]; [done|]. simpl.
  destruct call as [|c0|w| |p|p|];
    try (apply IH; intros col' Hin; apply (Hrest col');
         by apply list_elem_of_further).
  destruct (Hrest c0). apply list_elem_of_here.
Qed.

(** The colour and width are those of the context, not of the user: when
    two users have begun strokes, a move of the first is drawn, from the
    first user's point, in the colour that the second one's begin set. *)
Theorem move_is_drawn_in_latest_style c calls r u1 u2 col1 col2 w1 w2 p1 p2 q rest :
  ctx c = Some calls → u1 ≠ u2 →
  let c3 := handleRemoteEvent
              (handleRemoteEvent
                 (handleRemoteEvent c (BeginMsg r u1 col1 w1 p1))
                 (BeginMsg r u2 col2 w2 p2))
              (MoveMsg r u1 (q :: rest)) in
  ∃ before,
    ctx c3 = Some (before ++ [BeginPath; MoveTo p1] ++ map LineTo (q :: rest)
                   ++ [Stroke])
    ∧ stroke_style before = Some col2.
Proof.
  intros Hc Hu. cbv zeta. unfold handleRemoteEvent. rewrite Hc. simpl.
  rewrite lookup_insert_ne by done. rewrite lookup_insert_eq. simpl.
  eexists. split; [reflexivity|]. unfold applyBegin.
  apply stroke_style_app. intros col' Hin.
  repeat (apply elem_of_cons in Hin as [Hin|Hin]; [discriminate Hin|]).
  inversion Hin.
Qed.

Lemma move_is_drawn_in_latest_style_witness :
  let c3 := handleRemoteEvent
              (handleRemoteEvent
                 (handleRemoteEvent ready_u1
                    (BeginMsg "r1" "u2" "#f00" 2%Z (1, 1)%Z))
                 (BeginMsg "r1" "u3" "#00f" 5%Z (9, 9)%Z))
              (MoveMsg "r1" "u2" [(2, 2)%Z]) in
  ∃ before,
    ctx c3 = Some (before ++ [BeginPath; MoveTo (1, 1)%Z] ++ map LineTo [(2, 2)%Z]
                   ++ [Stroke])
    ∧ stroke_style before = Some "#00f".
Proof.
  apply (move_is_drawn_in_latest_style ready_u1 [Setup] "r1" "u2" "u3"
           "#f00" "#00f" 2%Z 5%Z (1, 1)%Z (9, 9)%Z (2, 2)%Z []).
  - vm_compute. reflexivity.
  - discriminate.
Defined.

Lemma live_is_handleRemoteEvent c m :
  onmessage c (Some (Live m)) = handleRemoteEvent c m.
Proof.
  unfold onmessage, handleRemoteEvent. by destruct (ctx c).
Qed.

(** A peer that replays a history and then receives further events live
    ends in the very state, drawing included, of one that replays the
    history with these events at its end. *)
Theorem history_then_live_is_longer_history c r h live :
  foldl (λ c' m, onmessage c' (Some (Live m)))
    (onmessage c (Some (HistoryMsg r h))) live
  = onmessage c (Some (HistoryMsg r (h ++ live))).
Proof.
  assert (∀ c0, foldl (λ c' m, onmessage c' (Some (Live m))) c0 live
                = foldl handleRemoteEvent c0 live) as Hlive.
  { induction live as [|m live IH]; intros c0; [done|].
    cbn [foldl]. rewrite live_is_handleRemoteEvent. apply IH. }
  rewrite Hlive. unfold onmessage. destruct (ctx c) eqn:E.
  - by rewrite foldl_app.
  - clear Hlive. induction live as [|m live IH]; [done|].
    simpl. unfold handleRemoteEvent at 2. by rewrite E.
Qed.

(** *** Batching, once more *)

(** Samples alone send nothing: while the pointer is down they pile up in
    the buffer in order, and arm the timer once, under the room of the
    first sample that found it unarmed. *)
Theorem samples_accumulate_unsent ps c :
  localDrawing c = true → bool_decide (is_Some (ctx c)) = true →
  let c' := turns c (map PointerMove ps) in
  sent c' = sent c
  ∧ moveBuffer c' = moveBuffer c ++ ps
  ∧ flushTimer c'
    = match ps with
      | [] => flushTimer c
      | _ => Some (default (room c) (flushTimer c))
      end.
Proof.
  intros Hd Hx. apply bool_decide_eq_true in Hx. cbv zeta.
  revert c Hd Hx. induction ps as [|p ps IH]; intros c Hd [calls Hx].
  - simpl. by rewrite app_nil_r.
  - change (turns c (map PointerMove (p :: ps)))
      with (turns (onPointerMove c p) (map PointerMove ps)).
    assert (onPointerMove c p
            = scheduleFlush
                (set_moveBuffer (moveBuffer c ++ [p])
                   (set_localLast (Some p)
                      (set_ctx (Some (match localLast c with
                                      | Some l => calls ++ [BeginPath; MoveTo l;
                                                            LineTo p; Stroke]
                                      | None => calls
                                      end)) c)))) as Hstep.
    { unfold onPointerMove. by rewrite Hd, Hx. }
    destruct (IH (onPointerMove c p)) as (Hs & Hb & Ht).
    + rewrite Hstep. unfold scheduleFlush. simpl. by destruct (flushTimer c).
    + rewrite Hstep. unfold scheduleFlush. simpl. destruct (flushTimer c); simpl; eauto.
    + rewrite Hs, Hb, Ht, Hstep. unfold scheduleFlush. simpl.
      destruct (flushTimer c) as [r|] eqn:E; simpl; rewrite ?E; simpl;
        rewrite <-app_assoc; by destruct ps.
Qed.

Lemma samples_accumulate_unsent_witness :
  let c' := turns mid_stroke (map PointerMove [(16, 18)%Z; (20, 20)%Z]) in
  sent c' = sent mid_stroke
  ∧ moveBuffer c' = moveBuffer mid_stroke ++ [(16, 18)%Z; (20, 20)%Z]
  ∧ flushTimer c' = Some (default (room mid_stroke) (flushTimer mid_stroke)).
Proof.
  apply (samples_accumulate_unsent [(16, 18)%Z; (20, 20)%Z] mid_stroke).
  - vm_compute. reflexivity.
  - vm_compute. reflexivity.
Defined.

Lemma flush_shape r c :
  userId (flushMoveBuffer r c) = userId c
  ∧ ws (flushMoveBuffer r c) = ws c
  ∧ ∃ more,
      sent (flushMoveBuffer r c) = sent c ++ more
      ∧ Forall (λ m, msg_userId m = userId c) more
      ∧ (more ≠ [] → ws_open c = true).
Proof.
  destruct (ws_open c) eqn:Ho.
  - destruct (moveBuffer c) as [|p pts] eqn:Hb.
    + rewrite flush_idle by auto. repeat split. exists [].
      rewrite app_nil_r. by repeat split.
    + rewrite flush_ready by (by rewrite ?Hb). simpl. repeat split.
      eexists. split; [reflexivity|]. split; [by repeat constructor|done].
  - rewrite flush_idle by auto. repeat split. exists [].
    rewrite app_nil_r. by repeat split.
Qed.

Lemma turn_sent_shape c i :
  userId (turn c i) = userId c
  ∧ ∃ more,
      sent (turn c i) = sent c ++ more
      ∧ Forall (λ m, msg_userId m = userId c) more
      ∧ (more ≠ [] → ws_open (turn c i) = true).
Proof.
  assert (∀ c', userId c' = userId c → sent c' = sent c →
            userId c' = userId c
            ∧ ∃ more, sent c' = sent c ++ more
                ∧ Forall (λ m, msg_userId m = userId c) more
                ∧ (more ≠ [] → ws_open c' = true)) as Hquiet.
  { intros c' Hu Hs. split; [done|]. exists []. rewrite app_nil_r.
    by repeat split. }
  destruct i; simpl.
  - unfold onPointerDown. destruct (ctx c); [|by apply Hquiet].
    destruct (canvas c); simpl; [|by apply Hquiet].
    destruct (ws_open c) eqn:Ho; simpl; [|by apply Hquiet].
    split; [done|]. eexists. split; [reflexivity|].
    split; [by repeat constructor|]. intros _. exact Ho.
  - apply (Hquiet (onPointerMove c p)); unfold onPointerMove;
      destruct (negb (localDrawing c)); try done;
      destruct (ctx c); try done; unfold scheduleFlush; simpl;
      by destruct (flushTimer c).
  - unfold onPointerUp. destruct (negb (localDrawing c)); [by apply Hquiet|].
    destruct (canvas c); simpl; [|by apply Hquiet].
    destruct (ws_open c) eqn:Ho; simpl; [|by apply Hquiet].
    set (u := set_localLast None (set_localDrawing false c)).
    destruct (flush_shape (room c) u) as (Hu & Hws & more & Hs & Hm & _).
    split; [exact Hu|]. exists (more ++ [EndMsg (room c) (userId c)]).
    rewrite Hs, app_assoc. split; [done|]. split.
    + apply Forall_app. split; [done|]. by repeat constructor.
    + intros _. unfold ws_open. simpl. rewrite Hws. exact Ho.
  - destruct (flushTimer c) as [r|]; [|by apply Hquiet].
    unfold onFlushTimer. set (u := set_flushTimer None c).
    destruct (flush_shape r u) as (Hu & Hws & more & Hs & Hm & Ho).
    split; [exact Hu|]. exists more. split; [exact Hs|]. split; [exact Hm|].
    intros Hne. unfold ws_open. rewrite Hws. by apply Ho.
  - destruct (ws c) as [[[] room_]|] eqn:Hws; try (by apply Hquiet).
    unfold onopen. rewrite Hws. simpl. split; [done|].
    eexists. split; [reflexivity|]. by repeat constructor.
  - apply (Hquiet (onclose c)); unfold onclose; by destruct (ws c).
  - destruct (onmessage_wire c data) as (_ & _ & Hs & _ & _ & Hu & _).
    by apply Hquiet.
  - apply (Hquiet (changeRoom c)); unfold changeRoom, setupCanvas;
      by destruct (canvas c).
  - by apply (Hquiet (set_room r c)).
  - by apply (Hquiet (set_color col c)).
  - by apply (Hquiet (set_width w c)).
  - apply (Hquiet (setupCanvas c)); unfold setupCanvas; by destruct (canvas c).
Qed.

(** The component calls [send] only on an OPEN socket: a turn either sends
    nothing or leaves the socket OPEN, and what was sent before stays at
    the front of the log. *)
Theorem sends_only_on_open_socket c i :
  ∃ more,
    sent (turn c i) = sent c ++ more
    ∧ (more ≠ [] → ws_open (turn c i) = true).
Proof.
  destruct (turn_sent_shape c i) as (_ & more & Hs & _ & Ho). eauto.
Qed.

(** Every message the component sends carries its own user id. *)
Theorem sent_messages_carry_own_userId uid is_ :
  userId (turns (mounted uid) is_) = uid
  ∧ Forall (λ m, msg_userId m = uid) (sent (turns (mounted uid) is_)).
Proof.
  cut (∀ c, userId c = uid → Forall (λ m, msg_userId m = uid) (sent c) →
            userId (turns c is_) = uid
            ∧ Forall (λ m, msg_userId m = uid) (sent (turns c is_))).
  { intros H. apply H; [done|constructor]. }
  induction is_ as [|i is_ IH]; intros c Hu Hs; [done|].
  simpl. destruct (turn_sent_shape c i) as (Hu' & more & Hs' & Hm & _).
  apply IH; [congruence|]. rewrite Hs'. apply Forall_app. split; [done|].
  by rewrite <-Hu.
Qed.

(** Changing room does not discard the buffer.  When the armed timer fires
    after the new socket has opened, the buffered points are sent on the
    new connection right after the join, under the room name the timer was
    armed with.  When it fires before, nothing is sent and the timer is
    cleared, but the points stay buffered, and a flush that runs once the
    socket is open sends them, after the join. *)
Theorem room_change_keeps_unsent_points c r r' :
  moveBuffer c ≠ [] → flushTimer c = Some r →
  moveBuffer (changeRoom c) = moveBuffer c
  ∧ (let c' := turns c [JoinRoomClicked; SocketOpened; FlushTimerFired] in
     sent c' = sent c ++ [JoinMsg (room c) (userId c);
                          MoveMsg r (userId c) (moveBuffer c)]
     ∧ moveBuffer c' = [])
  ∧ (let c' := turns c [JoinRoomClicked; FlushTimerFired; SocketOpened] in
     sent c' = sent c ++ [JoinMsg (room c) (userId c)]
     ∧ moveBuffer c' = moveBuffer c
     ∧ flushTimer c' = None
     ∧ sent (flushMoveBuffer r' c')
       = sent c ++ [JoinMsg (room c) (userId c);
                    MoveMsg r' (userId c) (moveBuffer c)]
     ∧ moveBuffer (flushMoveBuffer r' c') = []).
Proof.
  intros Hb Ht. cbv zeta.
  change (turns c [JoinRoomClicked; SocketOpened; FlushTimerFired])
    with (turn (turn (changeRoom c) SocketOpened) FlushTimerFired).
  change (turns c [JoinRoomClicked; FlushTimerFired; SocketOpened])
    with (turn (turn (changeRoom c) FlushTimerFired) SocketOpened).
  assert (ws (changeRoom c) = Some (mkSocket CONNECTING (room c))
          ∧ sent (changeRoom c) = sent c
          ∧ moveBuffer (changeRoom c) = moveBuffer c
          ∧ flushTimer (changeRoom c) = flushTimer c
          ∧ userId (changeRoom c) = userId c) as (Hws & Hs & Hm & Hf & Hu).
  { unfold changeRoom, connectWs, setupCanvas. by destruct (canvas c). }
  split; [exact Hm|].
  set (d := changeRoom c) in *. clearbody d.
  assert (∀ e, ws e = ws d → userId e = userId d →
               turn e SocketOpened
               = send (JoinMsg (room c) (userId d))
                   (set_connected true
                      (set_ws (Some (mkSocket OPEN (room c))) e))) as Hopen.
  { intros e He Hue. unfold turn, onopen. rewrite He, Hws. simpl.
    by rewrite Hue. }
  split.
  - rewrite (Hopen d) by done.
    unfold turn. simpl. rewrite Hf, Ht. unfold onFlushTimer.
    rewrite flush_ready.
    + simpl. by rewrite Hs, Hm, Hu, <-app_assoc.
    + done.
    + simpl. by rewrite Hm.
  - assert (turn d FlushTimerFired = set_flushTimer None d) as ->.
    { unfold turn. rewrite Hf, Ht. unfold onFlushTimer.
      apply flush_idle. left. unfold ws_open. simpl. by rewrite Hws. }
    rewrite (Hopen (set_flushTimer None d)) by done.
    simpl. rewrite Hs, Hm, Hu. split; [done|]. split; [done|]. split; [done|].
    rewrite flush_ready.
    + simpl. by rewrite Hs, Hm, Hu, <-app_assoc.
    + done.
    + simpl. by rewrite Hm.
Qed.

Lemma room_change_keeps_unsent_points_witness :
  moveBuffer (changeRoom mid_stroke) = moveBuffer mid_stroke
  ∧ (let c' := turns mid_stroke [JoinRoomClicked; SocketOpened; FlushTimerFired] in
     sent c' = sent mid_stroke
               ++ [JoinMsg (room mid_stroke) (userId mid_stroke);
                   MoveMsg "room1" (userId mid_stroke) (moveBuffer mid_stroke)]
     ∧ moveBuffer c' = [])
  ∧ (let c' := turns mid_stroke [JoinRoomClicked; FlushTimerFired; SocketOpened] in
     sent c' = sent mid_stroke
               ++ [JoinMsg (room mid_stroke) (userId mid_stroke)]
     ∧ moveBuffer c' = moveBuffer mid_stroke
     ∧ flushTimer c' = None
     ∧ sent (flushMoveBuffer "room2" c')
       = sent mid_stroke
         ++ [JoinMsg (room mid_stroke) (userId mid_stroke);
             MoveMsg "room2" (userId mid_stroke) (moveBuffer mid_stroke)]
     ∧ moveBuffer (flushMoveBuffer "room2" c') = []).
Proof.
  apply (room_change_keeps_unsent_points mid_stroke "room1" "room2").
  - vm_compute. discriminate.
  - vm_compute. reflexivity.
Defined.

(** *** The local pen *)

Lemma last_of_cons {A} (x d d' : A) l :
  List.last (x :: l) d = List.last (x :: l) d'.
Proof.
  revert x. induction l as [|y l IH]; intros x; [done|].
  change (List.last (y :: l) d = List.last (y :: l) d'). apply IH.
Qed.

(** The user's own stroke is drawn at once and whatever the socket does:
    each sample adds the segment from the point before it, starting at the
    point the pen was last at. *)
Theorem samples_draw_connected_segments ps c calls l :
  localDrawing c = true → ctx c = Some calls → localLast c = Some l →
  let c' := turns c (map PointerMove ps) in
  ctx c' = Some (calls ++ local_segments l ps)
  ∧ localLast c' = Some (List.last ps l).
Proof.
  cbv zeta. revert c calls l.
  induction ps as [|p ps IH]; intros c calls l Hd Hx Hl.
  - simpl. by rewrite app_nil_r.
  - change (turns c (map PointerMove (p :: ps)))
      with (turns (onPointerMove c p) (map PointerMove ps)).
    destruct (IH (onPointerMove c p)
                (calls ++ [BeginPath; MoveTo l; LineTo p; Stroke]) p)
      as [Hc' Hl'].
    + unfold onPointerMove. rewrite Hd, Hx. unfold scheduleFlush. simpl.
      by destruct (flushTimer c).
    + unfold onPointerMove. rewrite Hd, Hx, Hl. unfold scheduleFlush. simpl.
      by destruct (flushTimer c).
    + unfold onPointerMove. rewrite Hd, Hx. unfold scheduleFlush. simpl.
      by destruct (flushTimer c).
    + rewrite Hc', Hl'. split.
      * by rewrite <-app_assoc.
      * destruct ps as [|q ps]; [done|]. f_equal.
        change (List.last (q :: ps) p = List.last (q :: ps) l).
        apply last_of_cons.
Qed.

Lemma samples_draw_connected_segments_witness :
  let c' := turns (onPointerDown ready_u1 (10, 10)%Z)
              (map PointerMove [(12, 12)%Z; (14, 14)%Z]) in
  ctx c' = Some ([Setup; SetStrokeStyle "#111111"; SetLineWidth 2%Z; BeginPath;
                  MoveTo (10, 10)%Z]
                 ++ local_segments (10, 10)%Z [(12, 12)%Z; (14, 14)%Z])
  ∧ localLast c' = Some (List.last [(12, 12)%Z; (14, 14)%Z] (10, 10)%Z).
Proof.
  apply (samples_draw_connected_segments [(12, 12)%Z; (14, 14)%Z]
           (onPointerDown ready_u1 (10, 10)%Z)
           [Setup; SetStrokeStyle "#111111"; SetLineWidth 2%Z; BeginPath;
            MoveTo (10, 10)%Z] (10, 10)%Z).
  - vm_compute. reflexivity.
  - vm_compute. reflexivity.
  - vm_compute. reflexivity.
Defined.

(** A pointer-up while the socket is not OPEN does not end the stroke:
    nothing changes and nothing is sent, so the samples that follow are
    still drawn and buffered as part of it. *)
Theorem pointer_up_off_line_keeps_stroke c calls p :
  localDrawing c = true → ctx c = Some calls → ws_open c = false →
  onPointerUp c = c
  ∧ localDrawing (turns c [PointerUp; PointerMove p]) = true
  ∧ moveBuffer (turns c [PointerUp; PointerMove p]) = moveBuffer c ++ [p]
  ∧ sent (turns c [PointerUp; PointerMove p]) = sent c.
Proof.
  intros Hd Hx Ho.
  assert (onPointerUp c = c) as Hup.
  { unfold onPointerUp. rewrite Hd, Ho. simpl. by rewrite orb_true_r. }
  split; [done|].
  change (turns c [PointerUp; PointerMove p])
    with (onPointerMove (onPointerUp c) p).
  rewrite Hup. unfold onPointerMove. rewrite Hd, Hx. unfold scheduleFlush. simpl.
  by destruct (flushTimer c).
Qed.

Lemma pointer_up_off_line_keeps_stroke_witness :
  onPointerUp (turn mid_stroke SocketClosed) = turn mid_stroke SocketClosed
  ∧ localDrawing (turns (turn mid_stroke SocketClosed)
                    [PointerUp; PointerMove (20, 20)%Z]) = true
  ∧ moveBuffer (turns (turn mid_stroke SocketClosed)
                  [PointerUp; PointerMove (20, 20)%Z])
    = moveBuffer (turn mid_stroke SocketClosed) ++ [(20, 20)%Z]
  ∧ sent (turns (turn mid_stroke SocketClosed)
            [PointerUp; PointerMove (20, 20)%Z])
    = sent (turn mid_stroke SocketClosed).
Proof.
  apply (pointer_up_off_line_keeps_stroke (turn mid_stroke SocketClosed)
           ([Setup; SetStrokeStyle "#111111"; SetLineWidth 2%Z; BeginPath;
             MoveTo (10, 10)%Z]
            ++ local_segments (10, 10)%Z [(12, 12)%Z; (14, 14)%Z])
           (20, 20)%Z).
  - vm_compute. reflexivity.
  - vm_compute. reflexivity.
  - vm_compute. reflexivity.
Defined.

End ClientProofs.

(** ** Client and server together *)

Module RelayProofs.
Import Server.

Lemma encode_not_null m : Client.encode m ≠ JNull.
Proof. by destruct m. Qed.

Lemma encode_is_join m : is_join (Client.encode m) = Client.is_join_msg m.
Proof. by destruct m. Qed.

Lemma wire_points pts :
  map wire (map Client.encode_point pts) = map Client.encode_point pts.
Proof. induction pts as [|p pts IH]; [done|]. simpl. by rewrite IH. Qed.

Lemma stamp_encode r m :
  wire (JObj (set_field "room" (JStr r) (spread (Client.encode m))))
  = Client.encode (Client.with_room r m).
Proof. destruct m; try done. simpl. by rewrite wire_points. Qed.

(** What the server stores and hands to the peers for a begin, move or end
    as the component writes it is that very message with the room of the
    sender's session in place of the room it named, field for field and in
    the same order. *)
Theorem relayed_message_differs_in_room_only st ws m r events :
  Client.is_join_msg m = false →
  room ws = Some (JStr r) → r ≠ "" →
  roomHistory st !! KStr r = Some events →
  on_message st ws (Parsed (Client.encode m))
  = Returned
      (mkState (clients st)
         (<[KStr r := events ++ [Client.encode (Client.with_room r m)]]>
            (roomHistory st))
         (accepted st))
      (Append (KStr r) (Client.encode (Client.with_room r m))
         :: broadcast (clients st) (KStr r)
              (Client.encode (Client.with_room r m)) (sid ws))
  ∧ stroke_kind (Client.encode (Client.with_room r m)) = true.
Proof.
  intros Hm Hr Hne Hev. split; [|by destruct m].
  assert (identity ws = KStr r) as Hid by (unfold identity; by rewrite Hr).
  rewrite (ServerProofs.on_message_relay _ _ _ (JStr r)).
  - cbv zeta. rewrite Hid, Hev. by rewrite stamp_encode.
  - apply encode_not_null.
  - by rewrite encode_is_join.
  - done.
  - simpl. destruct (String.eqb r "") eqn:E; [|done].
    apply String.eqb_eq in E. done.
Qed.

(** The first client of [two_joined] sends a move that names room9. *)
Lemma relayed_message_differs_in_room_only_witness :
  on_message (after two_joined) (mkSession 0 OPEN (Some (JStr "r1")) 1)
    (Parsed (Client.encode (Client.MoveMsg "room9" "u1" [(12, 12)%Z])))
  = Returned
      (mkState (clients (after two_joined))
         (<[KStr "r1" := [] ++ [Client.encode
                                  (Client.with_room "r1"
                                     (Client.MoveMsg "room9" "u1" [(12, 12)%Z]))]]>
            (roomHistory (after two_joined)))
         (accepted (after two_joined)))
      (Append (KStr "r1")
         (Client.encode (Client.with_room "r1"
                           (Client.MoveMsg "room9" "u1" [(12, 12)%Z])))
         :: broadcast (clients (after two_joined)) (KStr "r1")
              (Client.encode (Client.with_room "r1"
                                (Client.MoveMsg "room9" "u1" [(12, 12)%Z])))
              (sid (mkSession 0 OPEN (Some (JStr "r1")) 1)))
  ∧ stroke_kind (Client.encode (Client.with_room "r1"
                                  (Client.MoveMsg "room9" "u1" [(12, 12)%Z])))
    = true.
Proof.
  apply (relayed_message_differs_in_room_only (after two_joined)
           (mkSession 0 OPEN (Some (JStr "r1")) 1)
           (Client.MoveMsg "room9" "u1" [(12, 12)%Z]) "r1" []).
  - reflexivity.
  - reflexivity.
  - discriminate.
  - vm_compute. reflexivity.
Defined.

End RelayProofs.
